(** * xk6-kv: the key-value stores, their serializers and the disk store's
      open/close protocol

    A shallow embedding of [kv/store]: [memory.go], [disk.go],
    [serialized_store.go], the [Store] interface and the two serializers,
    and of the options of [openKv] and the store the module shares
    ([kv/module.go]).

    Conventions.
    - A Go [string] is a [string]; a [[]byte] is a [list byte];
      [[]byte(s)] is [list_byte_of_string] and [string(b)] is
      [string_of_list_byte].
    - A Go function returning [(T, error)] returns a [result T]; one
      returning only [error] returns an [option error] ([None] is [nil]).
    - Methods with a pointer receiver take the receiver's state and return
      the new one.
    - [int64] values are integers kept in range by [wrap64].
    - What the code obtains from libraries that are not part of the
      repository is kept apart: the dynamic types of [any] other than
      [[]byte] and [string] and their [fmt] renderings ([GoValue]),
      [encoding/json] ([EncodingJSON]), the bbolt engine ([bolt]) and
      what the JavaScript runtime makes of the argument of [openKv]
      ([kv.argument]). *)

From Stdlib Require Import ZArith Strings.Byte DecimalString.
From stdpp Require Import base decidable list gmap strings sorting.

Open Scope string_scope.
Open Scope Z_scope.
Open Scope list_scope.

(** ** Machine integers *)

Definition wrap64 (z : Z) : Z := (z + 2 ^ 63) mod 2 ^ 64 - 2 ^ 63.
Arguments wrap64 : simpl never.

Definition in_int64 (z : Z) : Prop := - 2 ^ 63 <= z < 2 ^ 63.

(** ** Byte sequences and strings *)

#[global] Instance byte_eq_dec : EqDecision byte := Byte.byte_eq_dec.

(** The conversions [string(b)] and [[]byte(s)]. *)
Abbreviation string_of_list_byte := String.string_of_list_byte.
Abbreviation list_byte_of_string := String.list_byte_of_string.

(** [strings.HasPrefix(s, prefix)] *)
Definition HasPrefix (s prefix : string) : bool := String.prefix prefix s.

(** Go's [<] on strings and [bytes.Compare] are the same byte-wise
    lexicographic order; [String.compare] is that order on strings. *)
Definition string_lt (s1 s2 : string) : Prop := String.compare s1 s2 = Lt.

Definition bytes_Compare (a b : list byte) : comparison :=
  String.compare (string_of_list_byte a) (string_of_list_byte b).

(** [sort.Strings]: the result is the non-decreasing arrangement of its
    argument (strings that compare equal are identical, so every sorting
    algorithm returns the same slice). *)
Definition sort_Strings (keys : list string) : list string :=
  merge_sort String.le keys.

(** ** Errors *)

Inductive error : Type :=
  | External (msg : string)
      (* an error value made by a library: bbolt, encoding/json, the OS *)
  | KeyNotFound (key : string)
      (* fmt.Errorf("key %s not found", key) *)
  | BucketNotFound (name : option (list byte))
      (* fmt.Errorf("bucket %s not found", s.bucket); Set omits the name *)
  | UnsupportedValueType (store type_name : string)
      (* fmt.Errorf("unsupported value type for %s store: %T", value) *)
  | Wrapped (context : string) (cause : error).
      (* fmt.Errorf(context + ": %w", cause) *)

(** The [Error()] text of an error value. *)
Fixpoint Error (e : error) : string :=
  match e with
  | External msg => msg
  | KeyNotFound key => "key " +:+ key +:+ " not found"
  | BucketNotFound (Some name) =>
      "bucket " +:+ string_of_list_byte name +:+ " not found"
  | BucketNotFound None => "bucket not found"
  | UnsupportedValueType store ty =>
      "unsupported value type for " +:+ store +:+ " store: " +:+ ty
  | Wrapped context cause => context +:+ ": " +:+ Error cause
  end.

Inductive result (A : Type) : Type :=
  | Ok (a : A)
  | Err (e : error).
Arguments Ok {A} a.
Arguments Err {A} e.

Definition is_unsupported_value_type (e : error) : bool :=
  match e with UnsupportedValueType _ _ => true | _ => false end.

Definition is_bucket_not_found (e : error) : bool :=
  match e with BucketNotFound _ => true | _ => false end.

(** The error a call reports has a "bucket not found" error somewhere in
    its chain of causes ([errors.Unwrap]). *)
Fixpoint caused_by_bucket_not_found (e : error) : bool :=
  match e with
  | BucketNotFound _ => true
  | Wrapped _ cause => caused_by_bucket_not_found cause
  | _ => false
  end.

(** ** Values of type [any] *)

(** The dynamic types the stores do not single out, with what [fmt]
    prints for them. *)
Class GoValue : Type := {
  other : Type;
  type_name : other -> string;   (* the verb %T *)
  sprint : other -> string;      (* the verb %v *)
}.

Inductive any {V : GoValue} : Type :=
  | VNil
  | VBytes (b : list byte)
  | VString (s : string)
  | VOther (o : other).

(** [fmt.Sprintf("%T", value)] *)
Definition TypeOf {V : GoValue} (value : any) : string :=
  match value with
  | VNil => "<nil>"
  | VBytes _ => "[]uint8"
  | VString _ => "string"
  | VOther o => type_name o
  end.

(** [fmt.Sprintf("%v", value)] for a value that is not a string. A byte
    slice prints as the decimal values of its bytes between brackets. *)
Definition byte_decimal (b : byte) : string :=
  NilZero.string_of_uint (N.to_uint (Byte.to_N b)).

Definition Sprint_bytes (b : list byte) : string :=
  "[" +:+ String.concat " " (map byte_decimal b) +:+ "]".

Definition Sprintf_v {V : GoValue} (value : any) : string :=
  match value with
  | VNil => "<nil>"
  | VBytes b => Sprint_bytes b
  | VString s => s
  | VOther o => sprint o
  end.

(** [encoding/json] *)
Class EncodingJSON {V : GoValue} : Type := {
  json_Marshal : any -> result (list byte);
  json_Unmarshal : list byte -> result any;
}.

(** ** store.go: entries *)

Record Entry {V : GoValue} : Type := mkEntry {
  Key : string;
  Value : any;
}.
Arguments mkEntry {V} Key Value.

(** ** serializer.go *)

Record Serializer {V : GoValue} : Type := mkSerializer {
  Serialize : any -> result (list byte);
  Deserialize : list byte -> result any;
}.
Arguments mkSerializer {V} Serialize Deserialize.

Module JSONSerializer.
Section JSONSerializer.
Context {V : GoValue} {J : EncodingJSON}.

Definition Serialize (value : any) : result (list byte) :=
  match json_Marshal value with
  | Err err => Err (Wrapped "unable to serialize value to JSON" err)
  | Ok data => Ok data
  end.

Definition Deserialize (data : list byte) : result any :=
  if (length data =? 0)%nat then Ok VNil
  else
    match json_Unmarshal data with
    | Err err => Err (Wrapped "unable to deserialize JSON value" err)
    | Ok value => Ok value
    end.

Definition NewJSONSerializer : Serializer :=
  mkSerializer Serialize Deserialize.
End JSONSerializer.
End JSONSerializer.

Module StringSerializer.
Section StringSerializer.
Context {V : GoValue}.

Definition Serialize (value : any) : result (list byte) :=
  match value with
  | VString str => Ok (list_byte_of_string str)
  | _ => Ok (list_byte_of_string (Sprintf_v value))
  end.

Definition Deserialize (data : list byte) : result any :=
  Ok (VString (string_of_list_byte data)).

Definition NewStringSerializer : Serializer :=
  mkSerializer Serialize Deserialize.
End StringSerializer.
End StringSerializer.

(** ** memory.go *)

Module MemoryStore.
Section MemoryStore.
Context {V : GoValue}.

(** The read/write lock [mu] serialises the methods; one call is one
    atomic step on the container. *)
Record t : Type := mk {
  container : gmap string (list byte);
}.

Definition NewMemoryStore : t := mk ∅.

Definition Get (key : string) (s : t) : result any :=
  match container s !! key with
  | None => Err (KeyNotFound key)
  | Some value => Ok (VBytes value)
  end.

Definition Set_ (key : string) (value : any) (s : t) : t * option error :=
  match value with
  | VBytes v => (mk (<[key := v]> (container s)), None)
  | VString v => (mk (<[key := list_byte_of_string v]> (container s)), None)
  | _ => (s, Some (UnsupportedValueType "memory" (TypeOf value)))
  end.

Definition Delete (key : string) (s : t) : t * option error :=
  (mk (delete key (container s)), None).

Definition Exists (key : string) (s : t) : result bool :=
  match container s !! key with
  | None => Ok false
  | Some _ => Ok true
  end.

Definition Clear (s : t) : t * option error := (mk ∅, None).

Definition Size (s : t) : result Z :=
  Ok (wrap64 (Z.of_nat (size (container s)))).

(** The first loop of [List]: [visit] is the order in which the [range]
    statement hands out the keys of the map. *)
Definition matching_keys (prefix : string) (visit : list string)
  : list string :=
  fold_left
    (fun keys k =>
       if String.eqb prefix "" || HasPrefix k prefix then keys ++ [k]
       else keys)
    visit [].

(** The second loop of [List], over the sorted keys. *)
Fixpoint collect (s : t) (limit : Z) (keys : list string)
    (count : Z) (entries : list Entry) : list Entry :=
  match keys with
  | [] => entries
  | k :: rest =>
      if (0 <? limit) && (limit <=? count) then entries
      else
        collect s limit rest (wrap64 (count + 1))
          (entries ++ [mkEntry k (VBytes (default [] (container s !! k)))])
  end.

Definition List_visiting (visit : list string)
    (prefix : string) (limit : Z) (s : t) : result (list Entry) :=
  let keys := sort_Strings (matching_keys prefix visit) in
  Ok (collect s limit keys 0 []).

(** Go leaves the iteration order of a map unspecified; [List] is run on
    the order [map_to_list] gives, and [List_visiting] on any other. *)
Definition List (prefix : string) (limit : Z) (s : t)
  : result (list Entry) :=
  List_visiting (map_to_list (container s)).*1 prefix limit s.

Definition Close (s : t) : t * option error := (s, None).
End MemoryStore.
End MemoryStore.

(** ** The bbolt engine, as [disk.go] uses it

    One database file holds named buckets; a bucket holds its pairs in
    increasing key order ([bytes.Compare]) and a cursor visits them in that
    order. A transaction works on the file's content and an [Update] that
    returns an error leaves the file as it was. Whether a call fails for a
    reason of the engine's own (I/O, a key or value the engine rejects) is
    decided by the environment: every fallible call takes the message of
    the error the environment makes it return, if any. The file lock that
    makes a second [Open] of a file wait for the first handle to close is
    not modelled. *)

Module bolt.
Abbreviation Bucket := (list (list byte * list byte)).
Abbreviation Tx := (list (list byte * Bucket)).

Record DB : Type := mkDB {
  db_opened : bool;
  db_path : string;
}.

(** The file system: the content of each database file and the number of
    handles the process holds open. *)
Record World : Type := mkWorld {
  files : gmap string Tx;
  open_handles : nat;
}.

Definition ErrDatabaseNotOpen : error := External "database not open".
Definition ErrBucketNameRequired : error := External "bucket name required".

(** [new(bolt.DB)] *)
Definition new_DB : DB := mkDB false "".

(** [tx.Bucket(name)] *)
Fixpoint Tx_Bucket (tx : Tx) (name : list byte) : option Bucket :=
  match tx with
  | [] => None
  | (n, b) :: rest => if decide (n = name) then Some b else Tx_Bucket rest name
  end.

(** The transaction after a write to the bucket [name]. *)
Fixpoint Tx_write (tx : Tx) (name : list byte) (b : Bucket) : Tx :=
  match tx with
  | [] => []
  | (n, b0) :: rest =>
      if decide (n = name) then (n, b) :: rest
      else (n, b0) :: Tx_write rest name b
  end.

(** [tx.CreateBucketIfNotExists(name)] *)
Definition CreateBucketIfNotExists (tx : Tx) (name : list byte) : result Tx :=
  match name with
  | [] => Err ErrBucketNameRequired
  | _ =>
      match Tx_Bucket tx name with
      | Some _ => Ok tx
      | None => Ok (tx ++ [(name, [])])
      end
  end.

(** [bucket.Get(key)]: [None] is the nil slice the engine returns for a
    key that is not in the bucket. *)
Fixpoint Get (b : Bucket) (key : list byte) : option (list byte) :=
  match b with
  | [] => None
  | (k, v) :: rest => if decide (k = key) then Some v else Get rest key
  end.

(** [bucket.Put(key, value)] *)
Fixpoint Put (b : Bucket) (key value : list byte) : Bucket :=
  match b with
  | [] => [(key, value)]
  | (k, v) :: rest =>
      match bytes_Compare key k with
      | Lt => (key, value) :: b
      | Eq => (key, value) :: rest
      | Gt => (k, v) :: Put rest key value
      end
  end.

(** [bucket.Delete(key)] *)
Definition Delete (b : Bucket) (key : list byte) : Bucket :=
  filter (fun kv => kv.1 ≠ key) b.

(** [bucket.ForEach(func(k, _) { return bucket.Delete(k) })] *)
Definition ForEach_Delete (b : Bucket) : Bucket :=
  fold_left (fun acc kv => Delete acc kv.1) b b.

(** [bucket.Stats().KeyN] *)
Definition KeyN (b : Bucket) : nat := length b.

(** [bolt.Open(path, 0o600, nil)]: the file is created when absent. *)
Definition Open (path : string) (fault : option string) (w : World)
  : World * result DB :=
  match fault with
  | Some msg => (w, Err (External msg))
  | None =>
      (mkWorld (<[path := default [] (files w !! path)]> (files w))
               (S (open_handles w)),
       Ok (mkDB true path))
  end.

(** [db.Close()]: a handle that is not open is left alone; an open one is
    released even when the engine reports an error. *)
Definition Close (db : DB) (fault : option string) (w : World)
  : DB * World * option error :=
  if db_opened db then
    (mkDB false (db_path db),
     mkWorld (files w) (Nat.pred (open_handles w)),
     option_map External fault)
  else (db, w, None).

Definition content (db : DB) (w : World) : Tx :=
  default [] (files w !! db_path db).

(** [db.View(fn)] *)
Definition View {A : Type} (db : DB) (fault : option string) (w : World)
    (fn : Tx -> result A) : result A :=
  if negb (db_opened db) then Err ErrDatabaseNotOpen
  else
    match fault with
    | Some msg => Err (External msg)
    | None => fn (content db w)
    end.

(** [db.Update(fn)] *)
Definition Update (db : DB) (fault : option string) (w : World)
    (fn : Tx -> result Tx) : World * option error :=
  if negb (db_opened db) then (w, Some ErrDatabaseNotOpen)
  else
    match fault with
    | Some msg => (w, Some (External msg))
    | None =>
        match fn (content db w) with
        | Err err => (w, Some err)
        | Ok tx =>
            (mkWorld (<[db_path db := tx]> (files w)) (open_handles w), None)
        end
    end.
End bolt.

(** ** disk.go *)

Module DiskStore.
Section DiskStore.
Context {V : GoValue}.

Record t : Type := mk {
  path : string;
  handle : bolt.DB;
  bucket : list byte;
  opened : bool;
  refCount : Z;
}.

Definition DefaultDiskStorePath : string := ".k6.kv".
Definition DefaultKvBucket : string := "k6".

Definition NewDiskStore : t :=
  mk DefaultDiskStorePath bolt.new_DB [] false 0.

(** What the engine answers during one call of a method: the message of
    the error, if any, of [bolt.Open], of the bucket-creating [Update]
    inside [open], of the method's own transaction, and of
    [handle.Close]. *)
Record Env : Type := mkEnv {
  Open_fault : option string;
  init_fault : option string;
  tx_fault : option string;
  Close_fault : option string;
}.

Definition healthy : Env := mkEnv None None None None.

Definition create_bucket (tx : bolt.Tx) : result bolt.Tx :=
  match bolt.CreateBucketIfNotExists tx (list_byte_of_string DefaultDiskStorePath) with
  | Err bucketErr => Err (Wrapped "failed to create internal bucket" bucketErr)
  | Ok tx' => Ok tx'
  end.

(** [open], run without interference from other goroutines: the second
    test of [opened], made under the lock, then reads what the first
    read. [OpenRace] below runs the same statements one at a time. *)
Definition open (env : Env) (s : t) (w : bolt.World)
  : t * bolt.World * option error :=
  if opened s then
    (mk (path s) (handle s) (bucket s) (opened s) (wrap64 (refCount s + 1)),
     w, None)
  else if opened s then (s, w, None)
  else
    match bolt.Open (path s) (Open_fault env) w with
    | (w1, Err err) => (s, w1, Some err)
    | (w1, Ok handler) =>
        match bolt.Update handler (init_fault env) w1 create_bucket with
        | (w2, Some err) => (s, w2, Some err)
        | (w2, None) =>
            (mk (path s) handler (list_byte_of_string DefaultDiskStorePath)
                true (wrap64 (refCount s + 1)),
             w2, None)
        end
    end.

Definition Get (key : string) (env : Env) (s : t) (w : bolt.World)
  : t * bolt.World * result any :=
  match open env s w with
  | (s, w, Some err) => (s, w, Err (Wrapped "failed to open disk store" err))
  | (s, w, None) =>
      match
        bolt.View (handle s) (tx_fault env) w
          (fun tx =>
             match bolt.Tx_Bucket tx (bucket s) with
             | None => Err (BucketNotFound (Some (bucket s)))
             | Some b => Ok (bolt.Get b (list_byte_of_string key))
             end)
      with
      | Err err =>
          (s, w, Err (Wrapped "unable to get value from disk store" err))
      | Ok None => (s, w, Err (KeyNotFound key))
      | Ok (Some value) => (s, w, Ok (VBytes value))
      end
  end.

Definition Set_ (key : string) (value : any) (env : Env) (s : t)
    (w : bolt.World) : t * bolt.World * option error :=
  match open env s w with
  | (s, w, Some err) => (s, w, Some (Wrapped "failed to open disk store" err))
  | (s, w, None) =>
      let put (valueBytes : list byte) :=
        match
          bolt.Update (handle s) (tx_fault env) w
            (fun tx =>
               match bolt.Tx_Bucket tx (bucket s) with
               | None => Err (BucketNotFound None)
               | Some b =>
                   Ok (bolt.Tx_write tx (bucket s)
                         (bolt.Put b (list_byte_of_string key) valueBytes))
               end)
        with
        | (w, Some err) =>
            (s, w, Some (Wrapped "unable to insert value into disk store" err))
        | (w, None) => (s, w, None)
        end
      in
      match value with
      | VBytes v => put v
      | VString v => put (list_byte_of_string v)
      | _ => (s, w, Some (UnsupportedValueType "disk" (TypeOf value)))
      end
  end.

Definition Delete (key : string) (env : Env) (s : t) (w : bolt.World)
  : t * bolt.World * option error :=
  match open env s w with
  | (s, w, Some err) => (s, w, Some (Wrapped "failed to open disk store" err))
  | (s, w, None) =>
      match
        bolt.Update (handle s) (tx_fault env) w
          (fun tx =>
             match bolt.Tx_Bucket tx (bucket s) with
             | None => Err (BucketNotFound (Some (bucket s)))
             | Some b =>
                 Ok (bolt.Tx_write tx (bucket s)
                       (bolt.Delete b (list_byte_of_string key)))
             end)
      with
      | (w, Some err) =>
          (s, w, Some (Wrapped "unable to delete value from disk store" err))
      | (w, None) => (s, w, None)
      end
  end.

Definition Exists (key : string) (env : Env) (s : t) (w : bolt.World)
  : t * bolt.World * result bool :=
  match open env s w with
  | (s, w, Some err) => (s, w, Err (Wrapped "failed to open disk store" err))
  | (s, w, None) =>
      match
        bolt.View (handle s) (tx_fault env) w
          (fun tx =>
             match bolt.Tx_Bucket tx (bucket s) with
             | None => Err (BucketNotFound (Some (bucket s)))
             | Some b =>
                 Ok (match bolt.Get b (list_byte_of_string key) with
                     | None => false
                     | Some _ => true
                     end)
             end)
      with
      | Err err =>
          (s, w,
           Err (Wrapped "unable to check if key exists in disk store" err))
      | Ok exists_ => (s, w, Ok exists_)
      end
  end.

Definition Clear (env : Env) (s : t) (w : bolt.World)
  : t * bolt.World * option error :=
  match open env s w with
  | (s, w, Some err) => (s, w, Some (Wrapped "failed to open disk store" err))
  | (s, w, None) =>
      match
        bolt.Update (handle s) (tx_fault env) w
          (fun tx =>
             match bolt.Tx_Bucket tx (bucket s) with
             | None => Err (BucketNotFound (Some (bucket s)))
             | Some b =>
                 Ok (bolt.Tx_write tx (bucket s) (bolt.ForEach_Delete b))
             end)
      with
      | (w, Some err) => (s, w, Some (Wrapped "unable to clear disk store" err))
      | (w, None) => (s, w, None)
      end
  end.

Definition Size (env : Env) (s : t) (w : bolt.World)
  : t * bolt.World * result Z :=
  match open env s w with
  | (s, w, Some err) => (s, w, Err (Wrapped "failed to open disk store" err))
  | (s, w, None) =>
      match
        bolt.View (handle s) (tx_fault env) w
          (fun tx =>
             match bolt.Tx_Bucket tx (bucket s) with
             | None => Err (BucketNotFound (Some (bucket s)))
             | Some b => Ok (wrap64 (Z.of_nat (bolt.KeyN b)))
             end)
      with
      | Err err =>
          (s, w, Err (Wrapped "unable to get size of disk store" err))
      | Ok size => (s, w, Ok size)
      end
  end.

(** The cursor loop of [List]: [cursor] is what [c.First()] and the
    calls of [c.Next()] still have to return. *)
Fixpoint scan (prefix : string) (limit : Z)
    (cursor : list (list byte * list byte)) (count : Z)
    (entries : list Entry) : list Entry :=
  match cursor with
  | [] => entries
  | (k, v) :: rest =>
      let key := string_of_list_byte k in
      if negb (String.eqb prefix "") && negb (HasPrefix key prefix) then
        scan prefix limit rest count entries
      else if (0 <? limit) && (limit <=? count) then entries
      else
        scan prefix limit rest (wrap64 (count + 1))
          (entries ++ [mkEntry key (VBytes v)])
  end.

Definition List (prefix : string) (limit : Z) (env : Env) (s : t)
    (w : bolt.World) : t * bolt.World * result (list Entry) :=
  match open env s w with
  | (s, w, Some err) => (s, w, Err (Wrapped "failed to open disk store" err))
  | (s, w, None) =>
      match
        bolt.View (handle s) (tx_fault env) w
          (fun tx =>
             match bolt.Tx_Bucket tx (bucket s) with
             | None => Err (BucketNotFound (Some (bucket s)))
             | Some b => Ok (scan prefix limit b 0 [])
             end)
      with
      | Err err =>
          (s, w, Err (Wrapped "unable to list entries from disk store" err))
      | Ok entries => (s, w, Ok entries)
      end
  end.

Definition Close (env : Env) (s : t) (w : bolt.World)
  : t * bolt.World * option error :=
  if negb (opened s) then (s, w, None)
  else
    let newCount := wrap64 (refCount s - 1) in
    if 0 <? newCount then
      (mk (path s) (handle s) (bucket s) (opened s) newCount, w, None)
    else
      match bolt.Close (handle s) (Close_fault env) w with
      | (db, w, Some err) =>
          (mk (path s) db (bucket s) (opened s) newCount, w, Some err)
      | (db, w, None) =>
          (mk (path s) db (bucket s) false newCount, w, None)
      end.
End DiskStore.
End DiskStore.

(** ** store.go: the [Store] interface

    [S] is the state a backend's methods work on and [E] what the
    environment answers during one call. *)

Module Store.
Class t {V : GoValue} (S E : Type) : Type := mk {
  Get : string -> E -> S -> S * result any;
  Set_ : string -> any -> E -> S -> S * option error;
  Delete : string -> E -> S -> S * option error;
  Exists : string -> E -> S -> S * result bool;
  Clear : E -> S -> S * option error;
  Size : E -> S -> S * result Z;
  List : string -> Z -> E -> S -> S * result (list Entry);
  Close : E -> S -> S * option error;
}.
End Store.

#[global] Instance MemoryStore_Store {V : GoValue}
  : Store.t MemoryStore.t unit := {|
  Store.Get key _ s := (s, MemoryStore.Get key s);
  Store.Set_ key value _ s := MemoryStore.Set_ key value s;
  Store.Delete key _ s := MemoryStore.Delete key s;
  Store.Exists key _ s := (s, MemoryStore.Exists key s);
  Store.Clear _ s := MemoryStore.Clear s;
  Store.Size _ s := (s, MemoryStore.Size s);
  Store.List prefix limit _ s := (s, MemoryStore.List prefix limit s);
  Store.Close _ s := MemoryStore.Close s;
|}.

#[global] Instance DiskStore_Store {V : GoValue}
  : Store.t (DiskStore.t * bolt.World) DiskStore.Env := {|
  Store.Get key env sw := DiskStore.Get key env sw.1 sw.2;
  Store.Set_ key value env sw := DiskStore.Set_ key value env sw.1 sw.2;
  Store.Delete key env sw := DiskStore.Delete key env sw.1 sw.2;
  Store.Exists key env sw := DiskStore.Exists key env sw.1 sw.2;
  Store.Clear env sw := DiskStore.Clear env sw.1 sw.2;
  Store.Size env sw := DiskStore.Size env sw.1 sw.2;
  Store.List prefix limit env sw := DiskStore.List prefix limit env sw.1 sw.2;
  Store.Close env sw := DiskStore.Close env sw.1 sw.2;
|}.

(** ** serialized_store.go *)

Module SerializedStore.
Section SerializedStore.
Context {V : GoValue} {S E : Type} {backend : Store.t S E}.

Record t : Type := mk {
  store : S;
  serializer : Serializer;
}.

Definition NewSerializedStore (store : S) (serializer : Serializer) : t :=
  mk store serializer.

Definition Get (key : string) (e : E) (s : t) : t * result any :=
  match Store.Get key e (store s) with
  | (st, Err err) => (mk st (serializer s), Err err)
  | (st, Ok rawValue) =>
      (mk st (serializer s),
       match rawValue with
       | VString strValue =>
           Deserialize (serializer s) (list_byte_of_string strValue)
       | VBytes byteValue => Deserialize (serializer s) byteValue
       | _ => Ok rawValue
       end)
  end.

Definition Set_ (key : string) (value : any) (e : E) (s : t)
  : t * option error :=
  match Serialize (serializer s) value with
  | Err err => (s, Some (Wrapped "failed to serialize value" err))
  | Ok serializedValue =>
      let (st, err) := Store.Set_ key (VBytes serializedValue) e (store s) in
      (mk st (serializer s), err)
  end.

Definition Delete (key : string) (e : E) (s : t) : t * option error :=
  let (st, err) := Store.Delete key e (store s) in (mk st (serializer s), err).

Definition Exists (key : string) (e : E) (s : t) : t * result bool :=
  let (st, r) := Store.Exists key e (store s) in (mk st (serializer s), r).

Definition Clear (e : E) (s : t) : t * option error :=
  let (st, err) := Store.Clear e (store s) in (mk st (serializer s), err).

Definition Size (e : E) (s : t) : t * result Z :=
  let (st, r) := Store.Size e (store s) in (mk st (serializer s), r).

(** The loop of [List] over the raw entries. *)
Fixpoint deserialize_entries (sr : Serializer) (rawEntries : list Entry)
  : result (list Entry) :=
  match rawEntries with
  | [] => Ok []
  | entry :: rest =>
      let continue_with (e' : Entry) :=
        match deserialize_entries sr rest with
        | Err err => Err err
        | Ok entries => Ok (e' :: entries)
        end in
      let decode (data : list byte) :=
        match Deserialize sr data with
        | Err err =>
            Err (Wrapped ("failed to deserialize value for key " +:+ Key entry) err)
        | Ok deserializedValue =>
            continue_with (mkEntry (Key entry) deserializedValue)
        end in
      match Value entry with
      | VString strValue => decode (list_byte_of_string strValue)
      | VBytes byteValue => decode byteValue
      | _ => continue_with entry
      end
  end.

Definition List (prefix : string) (limit : Z) (e : E) (s : t)
  : t * result (list Entry) :=
  match Store.List prefix limit e (store s) with
  | (st, Err err) => (mk st (serializer s), Err err)
  | (st, Ok rawEntries) =>
      (mk st (serializer s), deserialize_entries (serializer s) rawEntries)
  end.

Definition Close (e : E) (s : t) : t * option error :=
  let (st, err) := Store.Close e (store s) in (mk st (serializer s), err).


End SerializedStore.
End SerializedStore.

(** ** module.go: the options of [openKv] and the store the module shares

    [openKv] gets its argument from the JavaScript runtime, which says
    whether the argument is null or undefined ([common.IsNullish]) and
    copies the properties of an object into the options
    ([Runtime.ExportTo]); both are the runtime's and are given with the
    argument. The KV object that [OpenKv] returns works on the store of
    the root module. *)

Module kv.
Record Options : Type := mkOptions {
  Backend : string;
  Serialization : string;
}.

Definition DefaultBackend : string := "disk".
Definition DefaultSerialization : string := "json".

Inductive error : Type :=
  | UnableToParseOptions (reason : string)
  | InvalidBackend (backend : string)
  | InvalidSerialization (serialization : string).

(** The [Error()] text, as the format strings of [NewOptionsFrom] make
    it. *)
Definition Error (e : error) : string :=
  match e with
  | UnableToParseOptions reason =>
      "unable to parse options; reason: " +:+ reason
  | InvalidBackend backend =>
      "invalid backend: " +:+ backend +:+ ", valid values are: " +:+
      DefaultBackend +:+ ", " +:+ "disk"
  | InvalidSerialization serialization =>
      "invalid serialization: " +:+ serialization +:+
      ", valid values are: " +:+ DefaultSerialization +:+ ", " +:+ "string"
  end.

(** The argument of [openKv]: null or undefined, or a value of which
    [ExportTo] makes the options, starting from the ones it is given, or
    an error. *)
Inductive argument : Type :=
  | Nullish
  | Object (ExportTo : Options -> Options * option string).

Definition NewOptionsFrom (options : argument) : Options * option error :=
  let opts := mkOptions DefaultBackend DefaultSerialization in
  match options with
  | Nullish => (opts, None)
  | Object ExportTo =>
      match ExportTo opts with
      | (opts, Some err) => (opts, Some (UnableToParseOptions err))
      | (opts, None) =>
          if negb (String.eqb (Backend opts) "memory") &&
             negb (String.eqb (Backend opts) "disk")
          then (opts, Some (InvalidBackend (Backend opts)))
          else if negb (String.eqb (Serialization opts) "json") &&
                  negb (String.eqb (Serialization opts) "string")
          then (opts, Some (InvalidSerialization (Serialization opts)))
          else (opts, None)
      end
  end.

Section OpenKv.
Context {V : GoValue} {J : EncodingJSON}.

(** A value of the interface [store.Store] made by [OpenKv]. *)
Inductive base_store : Type :=
  | OfMemoryStore (s : MemoryStore.t)
  | OfDiskStore (s : DiskStore.t).

(** [None] is the nil interface value. *)
Record RootModule : Type := mkRootModule {
  store : option (SerializedStore.t (S := option base_store));
}.

Definition New : RootModule := mkRootModule None.

(** [OpenKv]: the root module it leaves and the error it throws, if any. *)
Definition OpenKv (opts : argument) (rm : RootModule)
  : RootModule * option error :=
  match NewOptionsFrom opts with
  | (_, Some err) => (rm, Some err)
  | (options, None) =>
      match store rm with
      | Some _ => (rm, None)
      | None =>
          let baseStore :=
            if String.eqb (Backend options) "memory"
            then Some (OfMemoryStore MemoryStore.NewMemoryStore)
            else if String.eqb (Backend options) "disk"
            then Some (OfDiskStore DiskStore.NewDiskStore)
            else None in
          let serializer :=
            if String.eqb (Serialization options) "json"
            then JSONSerializer.NewJSONSerializer
            else if String.eqb (Serialization options) "string"
            then StringSerializer.NewStringSerializer
            else JSONSerializer.NewJSONSerializer in
          (mkRootModule
             (Some (SerializedStore.NewSerializedStore baseStore serializer)),
           None)
      end
  end.
End OpenKv.
End kv.

(** ** [DiskStore.open] under interleaving

    [open] is written for concurrent callers: two atomic fields, a mutex
    and a second test of [opened] under the lock. Here every statement of
    [open] is one atomic step of the goroutine that runs it, the atomics
    are sequentially consistent and [Lock] can be taken only while the
    mutex is free. The program points carry the line numbers of disk.go. *)

Module OpenRace.
Import DiskStore.

Inductive pc : Type :=
  | L46                        (* if s.opened.Load() *)
  | L47                        (* s.refCount.Add(1); return nil *)
  | L51                        (* s.lock.Lock() *)
  | L54                        (* if s.opened.Load() { return nil } *)
  | L58                        (* handler, err := bolt.Open(...) *)
  | L63 (handler : bolt.DB)    (* err = handler.Update(...) *)
  | L75 (handler : bolt.DB)    (* s.handle = handler *)
  | L76                        (* s.bucket = []byte(DefaultDiskStorePath) *)
  | L77                        (* s.opened.Store(true) *)
  | L78                        (* s.refCount.Add(1) *)
  | L80                        (* return nil *)
  | Returned (err : option error).

Record shared : Type := mkShared {
  store : DiskStore.t;
  world : bolt.World;
  lock : option nat;           (* the goroutine that holds s.lock *)
}.

(** One step of goroutine [g]; [None] when [g] cannot move (it waits for
    the mutex or it has returned). A [return] reached after [Lock] runs
    the deferred [Unlock]. *)
Definition step (env : Env) (g : nat) (sh : shared) (at_ : pc)
  : option (shared * pc) :=
  let s := store sh in
  match at_ with
  | L46 => Some (sh, if opened s then L47 else L51)
  | L47 =>
      Some (mkShared
              (mk (path s) (handle s) (bucket s) (opened s)
                  (wrap64 (refCount s + 1)))
              (world sh) (lock sh),
            Returned None)
  | L51 =>
      match lock sh with
      | None => Some (mkShared s (world sh) (Some g), L54)
      | Some _ => None
      end
  | L54 =>
      if opened s then Some (mkShared s (world sh) None, Returned None)
      else Some (sh, L58)
  | L58 =>
      match bolt.Open (path s) (Open_fault env) (world sh) with
      | (w1, Err err) => Some (mkShared s w1 None, Returned (Some err))
      | (w1, Ok handler) => Some (mkShared s w1 (lock sh), L63 handler)
      end
  | L63 handler =>
      match bolt.Update handler (init_fault env) (world sh) create_bucket with
      | (w2, Some err) => Some (mkShared s w2 None, Returned (Some err))
      | (w2, None) => Some (mkShared s w2 (lock sh), L75 handler)
      end
  | L75 handler =>
      Some (mkShared (mk (path s) handler (bucket s) (opened s) (refCount s))
              (world sh) (lock sh),
            L76)
  | L76 =>
      Some (mkShared
              (mk (path s) (handle s)
                  (list_byte_of_string DefaultDiskStorePath)
                  (opened s) (refCount s))
              (world sh) (lock sh),
            L77)
  | L77 =>
      Some (mkShared (mk (path s) (handle s) (bucket s) true (refCount s))
              (world sh) (lock sh),
            L78)
  | L78 =>
      Some (mkShared
              (mk (path s) (handle s) (bucket s) (opened s)
                  (wrap64 (refCount s + 1)))
              (world sh) (lock sh),
            L80)
  | L80 => Some (mkShared s (world sh) None, Returned None)
  | Returned _ => None
  end.

(** A goroutine alone, until it returns. *)
Fixpoint solo (fuel : nat) (env : Env) (g : nat) (sh : shared) (at_ : pc)
  : option (shared * option error) :=
  match at_, fuel with
  | Returned err, _ => Some (sh, err)
  | _, O => None
  | _, S fuel' =>
      match step env g sh at_ with
      | None => None
      | Some (sh', at') => solo fuel' env g sh' at'
      end
  end.

(** Several goroutines, each in a call of [open], moved one step at a
    time in the order [schedule] names them. *)
Fixpoint run (env : Env) (schedule : list nat) (sh : shared)
    (goroutines : list pc) : option (shared * list pc) :=
  match schedule with
  | [] => Some (sh, goroutines)
  | g :: schedule' =>
      match goroutines !! g with
      | None => None
      | Some at_ =>
          match step env g sh at_ with
          | None => None
          | Some (sh', at') =>
              run env schedule' sh' (<[g := at']> goroutines)
          end
      end
  end.
End OpenRace.

(** ** Sequences of calls *)

Inductive op {V : GoValue} : Type :=
  | OpGet (key : string)
  | OpSet (key : string) (value : any)
  | OpDelete (key : string)
  | OpExists (key : string)
  | OpClear
  | OpSize
  | OpList (prefix : string) (limit : Z)
  | OpClose.

Definition error_of {A : Type} (r : result A) : option error :=
  match r with
  | Ok _ => None
  | Err err => Some err
  end.

Section Calls.
Context {V : GoValue} {S E : Type} {backend : Store.t S E}.

(** One call on a backend: the state it leaves and the error it returns. *)
Definition call (o : op) (e : E) (s : S) : S * option error :=
  match o with
  | OpGet key => let (s', r) := Store.Get key e s in (s', error_of r)
  | OpSet key value => Store.Set_ key value e s
  | OpDelete key => Store.Delete key e s
  | OpExists key => let (s', r) := Store.Exists key e s in (s', error_of r)
  | OpClear => Store.Clear e s
  | OpSize => let (s', r) := Store.Size e s in (s', error_of r)
  | OpList prefix limit =>
      let (s', r) := Store.List prefix limit e s in (s', error_of r)
  | OpClose => Store.Close e s
  end.

(** The state after a sequence of calls, the first call first. *)
Definition run (calls : list (op * E)) (s : S) : S :=
  fold_left (fun s oe => (call oe.1 oe.2 s).1) calls s.
End Calls.

(** The calls of a history, each answered by the same environment. *)
Definition under {V : GoValue} {E : Type} (e : E) (history : list op)
  : list (op * E) :=
  map (fun o => (o, e)) history.

(** *** What a history leaves visible, in the words of the specification

    The most recent Set or Delete on a key decides whether the key is
    present and which value it has; Clear deletes every key; a Set whose
    value is neither a byte sequence nor text is refused and changes
    nothing. *)

Definition mutation_on {V : GoValue} (k : string) (o : op)
  : option (option (list byte)) :=
  match o with
  | OpSet key (VBytes v) => if decide (key = k) then Some (Some v) else None
  | OpSet key (VString v) =>
      if decide (key = k) then Some (Some (list_byte_of_string v)) else None
  | OpDelete key => if decide (key = k) then Some None else None
  | OpClear => Some None
  | _ => None
  end.

Fixpoint last_mutation {V : GoValue} (k : string) (history : list op)
  : option (option (list byte)) :=
  match history with
  | [] => None
  | o :: later =>
      match last_mutation k later with
      | Some m => Some m
      | None => mutation_on k o
      end
  end.



(** *** What [List] has to return, in the words of the specification

    [entries] is the list of the live pairs whose key starts with
    [prefix], in increasing key order, cut after [limit] entries when
    [limit] is positive. *)
Definition is_listing {V : GoValue} (live : string -> option (list byte))
    (prefix : string) (limit : Z) (entries : list Entry) : Prop :=
  exists full : list Entry,
    StronglySorted (fun e1 e2 => string_lt (Key e1) (Key e2)) full /\
    (forall k v,
        mkEntry k v ∈ full <->
        exists b, v = VBytes b /\ live k = Some b /\ HasPrefix k prefix = true) /\
    entries = if 0 <? limit then take (Z.to_nat limit) full else full.

(** ** The state of a disk store *)

Definition bucket_name : list byte :=
  list_byte_of_string DiskStore.DefaultDiskStorePath.

(** The bucket of the store in its database file, if both exist. *)
Definition store_bucket (s : DiskStore.t) (w : bolt.World)
  : option bolt.Bucket :=
  bolt.Tx_Bucket (default [] (bolt.files w !! DiskStore.path s)) bucket_name.

(** The value the file holds for a key. *)
Definition stored (s : DiskStore.t) (w : bolt.World) (k : string)
  : option (list byte) :=
  match store_bucket s w with
  | None => None
  | Some b => bolt.Get b (list_byte_of_string k)
  end.

(** A store that is closed, or open on its own file with its handle and
    its bucket in place. *)
Definition consistent (s : DiskStore.t) (w : bolt.World) : Prop :=
  DiskStore.opened s = bolt.db_opened (DiskStore.handle s) /\
  (DiskStore.opened s = true ->
     bolt.db_path (DiskStore.handle s) = DiskStore.path s /\
     DiskStore.bucket s = bucket_name /\
     is_Some (store_bucket s w)).

(** The engine keeps the keys of a bucket in strictly increasing order. *)
Definition key_ordered (b : bolt.Bucket) : Prop :=
  StronglySorted (fun x y => bytes_Compare x.1 y.1 = Lt) b.

Definition ordered (s : DiskStore.t) (w : bolt.World) : Prop :=
  forall b, store_bucket s w = Some b -> key_ordered b.

(** A store as [NewDiskStore] makes it, with the path its owner gave it
    (the tests set [store.path] before the first call). *)
Definition new_store (path : string) : DiskStore.t :=
  DiskStore.mk path bolt.new_DB [] false 0.

Example NewDiskStore_is_new :
  DiskStore.NewDiskStore = new_store DiskStore.DefaultDiskStorePath.
Proof. reflexivity. Qed.

(** The count and the handle agree. *)
Definition counted (s : DiskStore.t) : Prop :=
  (bolt.db_opened (DiskStore.handle s) = true <-> 0 < DiskStore.refCount s) /\
  0 <= DiskStore.refCount s.

(** ** Values for the examples

    The Go types [int] and [bool] as the other dynamic types, and a
    stand-in for [encoding/json] that knows the literals [null], [true]
    and [false] and answers every other input with an error; it is used
    only to run the serializers on concrete inputs. *)

Module Fragment.
Inductive scalar : Type :=
  | Int (z : Z)
  | Bool (b : bool).

#[export] Instance values : GoValue := {|
  other := scalar;
  type_name o := match o with Int _ => "int" | Bool _ => "bool" end;
  sprint o :=
    match o with
    | Int z => NilZero.string_of_int (Z.to_int z)
    | Bool true => "true"
    | Bool false => "false"
    end;
|}.

Definition literal (data : list byte) : result any :=
  let text := string_of_list_byte data in
  if String.eqb text "null" then Ok VNil
  else if String.eqb text "true" then Ok (VOther (Bool true))
  else if String.eqb text "false" then Ok (VOther (Bool false))
  else Err (External "invalid character looking for beginning of value").

Definition render (value : any) : result (list byte) :=
  match value with
  | VNil => Ok (list_byte_of_string "null")
  | VOther (Bool true) => Ok (list_byte_of_string "true")
  | VOther (Bool false) => Ok (list_byte_of_string "false")
  | VOther (Int z) => Ok (list_byte_of_string (sprint (Int z)))
  | _ => Err (External "json: value outside the literals of this stand-in")
  end.

#[export] Instance json : EncodingJSON := {|
  json_Marshal := render;
  json_Unmarshal := literal;
|}.
End Fragment.

(** ** Notions used in the statements *)

(** *** The outcomes of [DiskStore.open] *)

(** The file system after [bolt.Open] of the path, and after the bucket was
    created too. *)
Definition world_after_Open (p : string) (w : bolt.World) : bolt.World :=
  bolt.mkWorld (<[p := default [] (bolt.files w !! p)]> (bolt.files w))
               (S (bolt.open_handles w)).

Definition tx_with_bucket (tx : bolt.Tx) : bolt.Tx :=
  match bolt.Tx_Bucket tx bucket_name with
  | Some _ => tx
  | None => tx ++ [(bucket_name, [])]
  end.

Definition world_after_init (p : string) (w : bolt.World) : bolt.World :=
  bolt.mkWorld
    (<[p := tx_with_bucket (default [] (bolt.files w !! p))]> (bolt.files w))
    (S (bolt.open_handles w)).

(** What [open] returns and leaves behind, case by case. *)
Inductive open_outcome (env : DiskStore.Env) (s : DiskStore.t)
    (w : bolt.World) : DiskStore.t * bolt.World * option error -> Prop :=
  | open_counts :
      DiskStore.opened s = true ->
      open_outcome env s w
        (DiskStore.mk (DiskStore.path s) (DiskStore.handle s)
           (DiskStore.bucket s) true (wrap64 (DiskStore.refCount s + 1)),
         w, None)
  | open_Open_fails msg :
      DiskStore.opened s = false ->
      DiskStore.Open_fault env = Some msg ->
      open_outcome env s w (s, w, Some (External msg))
  | open_init_fails msg :
      DiskStore.opened s = false ->
      DiskStore.Open_fault env = None ->
      DiskStore.init_fault env = Some msg ->
      open_outcome env s w
        (s, world_after_Open (DiskStore.path s) w, Some (External msg))
  | open_opens :
      DiskStore.opened s = false ->
      DiskStore.Open_fault env = None ->
      DiskStore.init_fault env = None ->
      open_outcome env s w
        (DiskStore.mk (DiskStore.path s) (bolt.mkDB true (DiskStore.path s))
           bucket_name true (wrap64 (DiskStore.refCount s + 1)),
         world_after_init (DiskStore.path s) w, None).

(** The state a call leaves, next to the state it found. *)
Definition borrowed (s : DiskStore.t) (w : bolt.World)
    (s' : DiskStore.t) (w' : bolt.World) : Prop :=
  consistent s' w' /\
  DiskStore.opened s' = true /\
  DiskStore.path s' = DiskStore.path s /\
  DiskStore.refCount s' = wrap64 (DiskStore.refCount s + 1) /\
  bolt.open_handles w' =
    (if DiskStore.opened s then bolt.open_handles w
     else S (bolt.open_handles w)).

(** *** The reference count *)

(** The count, the flag and the handles of the process, [n] calls after
    the store was made on a process that held [h0] handles. *)
Definition counting (h0 : nat) (n : Z) (s : DiskStore.t) (w : bolt.World)
  : Prop :=
  DiskStore.opened s = bolt.db_opened (DiskStore.handle s) /\
  (if DiskStore.opened s then 0 < DiskStore.refCount s
   else DiskStore.refCount s = 0) /\
  DiskStore.refCount s <= n /\
  bolt.open_handles w = (h0 + (if DiskStore.opened s then 1 else 0))%nat.

Definition no_Close_or_init_error (env : DiskStore.Env) : Prop :=
  DiskStore.Close_fault env = None /\ DiskStore.init_fault env = None.

(** An environment in which [handle.Close] reports an error. *)
Definition Close_fails : DiskStore.Env :=
  DiskStore.mkEnv None None None (Some "close: input/output error").

(** Two callers of [open] on a new store over an empty file system, and the
    order in which they move. *)
Definition race_start : OpenRace.shared :=
  OpenRace.mkShared (new_store "kv.db") (bolt.mkWorld ∅ 0) None.

Definition race_schedule : list nat :=
  [0; 1; 0; 0; 0; 0; 0; 0; 0; 0; 0; 1; 1]%nat.

(** *** The bucket *)

(** While the store is marked open, the name in [s.bucket] is the name of
    the bucket [open] creates, and the file of the handle has that bucket. *)
Definition bucket_in_place (s : DiskStore.t) (w : bolt.World) : Prop :=
  DiskStore.opened s = true ->
  DiskStore.bucket s = bucket_name /\
  is_Some (bolt.Tx_Bucket (bolt.content (DiskStore.handle s) w) bucket_name).

(** *** Values and entries *)

(** The type switch of [Set]: the bytes a backend stores for a value, if
    it accepts the value. *)
Definition as_bytes {V : GoValue} (value : any) : option (list byte) :=
  match value with
  | VBytes v => Some v
  | VString v => Some (list_byte_of_string v)
  | _ => None
  end.


(** The entry [List] makes for a key of the memory store, and for a pair
    of a bucket. *)
Definition entry_of {V : GoValue} (s : MemoryStore.t) (k : string) : Entry :=
  mkEntry k (VBytes (default [] (MemoryStore.container s !! k))).

Definition entry_at {V : GoValue} (kv : list byte * list byte) : Entry :=
  mkEntry (string_of_list_byte kv.1) (VBytes kv.2).

(** The pairs of a bucket whose key starts with the prefix. *)
Definition matches (prefix : string) (kv : list byte * list byte) : Prop :=
  HasPrefix (string_of_list_byte kv.1) prefix = true.

#[global] Instance matches_dec (prefix : string) (kv : list byte * list byte)
  : Decision (matches prefix kv).
Proof. unfold matches. apply _. Defined.

(** *** Callers of [open] that run together *)

(** The program points between [s.lock.Lock()] and the deferred
    [Unlock]. *)
Definition in_section (at_ : OpenRace.pc) : bool :=
  match at_ with
  | OpenRace.L54 | OpenRace.L58 | OpenRace.L63 _ | OpenRace.L75 _
  | OpenRace.L76 | OpenRace.L77 | OpenRace.L78 | OpenRace.L80 => true
  | _ => false
  end.

(** The program points at which the caller has a handle from [bolt.Open]
    that the store is not yet marked open with. *)
Definition holds_handle (at_ : OpenRace.pc) : bool :=
  match at_ with
  | OpenRace.L63 _ | OpenRace.L75 _ | OpenRace.L76 | OpenRace.L77 => true
  | _ => false
  end.

(** Whether the goroutine that has the mutex holds such a handle. *)
Definition holding (sh : OpenRace.shared) (goroutines : list OpenRace.pc)
  : bool :=
  match OpenRace.lock sh with
  | Some g =>
      match goroutines !! g with
      | Some at_ => holds_handle at_
      | None => false
      end
  | None => false
  end.

Definition has_returned (at_ : OpenRace.pc) : Prop :=
  match at_ with OpenRace.Returned _ => True | _ => False end.

(** What every interleaving keeps, on a process that held [h0] handles
    when the store was made. *)
Record exclusive (h0 : nat) (sh : OpenRace.shared)
    (goroutines : list OpenRace.pc) : Prop := mkExclusive {
  exclusive_lock :
    forall g at_,
      goroutines !! g = Some at_ -> in_section at_ = true ->
      OpenRace.lock sh = Some g;
  exclusive_handles :
    bolt.open_handles (OpenRace.world sh) =
    (h0 + if DiskStore.opened (OpenRace.store sh) || holding sh goroutines
          then 1 else 0)%nat;
  exclusive_closed :
    forall g at_,
      goroutines !! g = Some at_ ->
      at_ = OpenRace.L58 \/ holds_handle at_ = true ->
      DiskStore.opened (OpenRace.store sh) = false;
  exclusive_handler :
    forall g handler,
      goroutines !! g = Some (OpenRace.L63 handler) ->
      bolt.db_opened handler = true;
}.



(** *** The options of [openKv] *)

Definition valid_options (opts : kv.Options) : Prop :=
  (kv.Backend opts = "memory" \/ kv.Backend opts = "disk") /\
  (kv.Serialization opts = "json" \/ kv.Serialization opts = "string").

(** The calls of [openKv] of a test run, in order. *)
Definition OpenKv_all {V : GoValue} {J : EncodingJSON}
    (calls : list kv.argument) (rm : kv.RootModule) : kv.RootModule :=
  fold_left (fun rm opts => (kv.OpenKv opts rm).1) calls rm.

(** * Properties *)

(** ** Strings, byte sequences and their order *)

Lemma list_byte_of_string_inj (a b : string) :
  list_byte_of_string a = list_byte_of_string b -> a = b.
Proof.
  intros Hab.
  rewrite <- (String.string_of_list_byte_of_string a),
          <- (String.string_of_list_byte_of_string b).
  by rewrite Hab.
Qed.

Lemma string_of_list_byte_inj (a b : list byte) :
  string_of_list_byte a = string_of_list_byte b -> a = b.
Proof.
  intros Hab.
  rewrite <- (String.list_byte_of_string_of_list_byte a),
          <- (String.list_byte_of_string_of_list_byte b).
  by rewrite Hab.
Qed.

Lemma HasPrefix_empty (k : string) : HasPrefix k "" = true.
Proof. unfold HasPrefix. by destruct k. Qed.

Lemma compare_refl (s : string) : String.compare s s = Eq.
Proof.
  induction s as [|a s IH]; simpl; [done|].
  unfold Ascii.compare. by rewrite N.compare_refl.
Qed.


Lemma string_lt_le (s1 s2 : string) : string_lt s1 s2 -> String.le s1 s2.
Proof.
  unfold string_lt, String.le, String.leb. by intros ->.
Qed.

Lemma string_le_lt (s1 s2 : string) :
  String.le s1 s2 -> s1 <> s2 -> string_lt s1 s2.
Proof.
  unfold string_lt, String.le, String.leb. intros Hle Hne.
  destruct (String.compare s1 s2) eqn:Hc; [|done|done].
  by apply String.compare_eq_iff in Hc.
Qed.

Lemma string_lt_asym (s1 s2 : string) :
  string_lt s1 s2 -> string_lt s2 s1 -> False.
Proof.
  unfold string_lt. intros H1 H2.
  rewrite String.compare_antisym, H1 in H2. discriminate.
Qed.

Lemma string_lt_trans (s1 s2 s3 : string) :
  string_lt s1 s2 -> string_lt s2 s3 -> string_lt s1 s3.
Proof.
  intros H12 H23. apply string_le_lt.
  - etrans; by apply string_lt_le.
  - intros ->. by eapply string_lt_asym.
Qed.

Lemma bytes_Compare_Eq (a b : list byte) : bytes_Compare a b = Eq <-> a = b.
Proof.
  unfold bytes_Compare. split.
  - intros Hc. by apply string_of_list_byte_inj, String.compare_eq_iff.
  - intros ->. apply compare_refl.
Qed.

Lemma bytes_Compare_string (k1 k2 : list byte) :
  bytes_Compare k1 k2 = Lt <->
  string_lt (string_of_list_byte k1) (string_of_list_byte k2).
Proof. done. Qed.

(** ** The serializers *)

(** C9. [JSONSerializer.Deserialize] of a zero-length byte sequence is the
    absent value [nil] with no error, whatever [json.Unmarshal] would say
    of it; of a non-empty byte sequence that [json.Unmarshal] rejects it is
    a decode error that wraps the decoder's. *)
Theorem JSONSerializer_Deserialize_empty_or_malformed
    {V : GoValue} {J : EncodingJSON} :
  JSONSerializer.Deserialize [] = Ok VNil /\
  forall data err,
    data <> [] ->
    json_Unmarshal data = Err err ->
    JSONSerializer.Deserialize data =
    Err (Wrapped "unable to deserialize JSON value" err).
Proof.
  split; [done|].
  intros data err Hne Herr. unfold JSONSerializer.Deserialize.
  destruct data as [|b data]; [done|]. simpl. by rewrite Herr.
Qed.

Lemma JSONSerializer_Deserialize_empty_or_malformed_witness :
  let data := list_byte_of_string "{" in
  data <> [] /\
  JSONSerializer.Deserialize (V := Fragment.values) (J := Fragment.json) data =
  Err (Wrapped "unable to deserialize JSON value"
         (External "invalid character looking for beginning of value")).
Proof.
  split; [discriminate|].
  apply (proj2 (@JSONSerializer_Deserialize_empty_or_malformed
                  Fragment.values Fragment.json));
    [discriminate | reflexivity].
Defined.

Lemma JSONSerializer_Deserialize_well_formed
    {V : GoValue} {J : EncodingJSON} (data : list byte) (value : any) :
  data <> [] ->
  json_Unmarshal data = Ok value ->
  JSONSerializer.Deserialize data = Ok value.
Proof.
  intros Hne Hok. unfold JSONSerializer.Deserialize.
  destruct data as [|b data]; [done|]. simpl. by rewrite Hok.
Qed.

Lemma StringSerializer_Serialize_total {V : GoValue} (value : any) :
  exists data, StringSerializer.Serialize value = Ok data.
Proof. destruct value; simpl; eauto. Qed.

Lemma StringSerializer_roundtrip_text {V : GoValue} (str : string) :
  exists data,
    StringSerializer.Serialize (VString str) = Ok data /\
    StringSerializer.Deserialize data = Ok (VString str).
Proof.
  eexists. split; [reflexivity|]. unfold StringSerializer.Deserialize.
  by rewrite String.string_of_list_byte_of_string.
Qed.

(** ** The backends refuse what is not bytes or text, and only that *)

Lemma MemoryStore_Set_bytes_never_unsupported {V : GoValue}
    (key : string) (data : list byte) (s : MemoryStore.t) :
  (MemoryStore.Set_ key (VBytes data) s).2 = None.
Proof. done. Qed.

(** ** The engine *)

Lemma Tx_Bucket_app (tx : bolt.Tx) (n name : list byte) (b : bolt.Bucket) :
  bolt.Tx_Bucket (tx ++ [(n, b)]) name =
  match bolt.Tx_Bucket tx name with
  | Some b0 => Some b0
  | None => if decide (n = name) then Some b else None
  end.
Proof.
  induction tx as [|[n0 b0] tx IH]; simpl; [done|].
  by destruct (decide (n0 = name)).
Qed.

Lemma Tx_Bucket_write (tx : bolt.Tx) (name : list byte) (b : bolt.Bucket) :
  is_Some (bolt.Tx_Bucket tx name) ->
  bolt.Tx_Bucket (bolt.Tx_write tx name b) name = Some b.
Proof.
  induction tx as [|[n0 b0] tx IH]; simpl; [by intros [? ?]|].
  destruct (decide (n0 = name)) as [->|Hne]; simpl.
  - by rewrite decide_True.
  - by rewrite decide_False.
Qed.

Lemma Get_Put (b : bolt.Bucket) (key value k : list byte) :
  bolt.Get (bolt.Put b key value) k =
  if decide (key = k) then Some value else bolt.Get b k.
Proof.
  induction b as [|[k0 v0] b IH]; simpl.
  - by destruct (decide (key = k)).
  - destruct (bytes_Compare key k0) eqn:Hc; simpl.
    + apply bytes_Compare_Eq in Hc as ->.
      by destruct (decide (k0 = k)).
    + by destruct (decide (key = k)).
    + rewrite IH. destruct (decide (k0 = k)) as [->|]; [|done].
      destruct (decide (key = k)) as [->|]; [|done].
      by rewrite (proj2 (bytes_Compare_Eq k k)) in Hc.
Qed.

Lemma Get_Delete (b : bolt.Bucket) (key k : list byte) :
  bolt.Get (bolt.Delete b key) k =
  if decide (key = k) then None else bolt.Get b k.
Proof.
  unfold bolt.Delete.
  induction b as [|[k0 v0] b IH].
  - simpl. by destruct (decide (key = k)).
  - rewrite filter_cons. simpl.
    destruct (decide (k0 ≠ key)) as [Hne|Heq]; simpl.
    + rewrite IH. destruct (decide (k0 = k)) as [->|]; [|done].
      by rewrite decide_False.
    + apply dec_stable in Heq as ->. rewrite IH.
      by destruct (decide (key = k)).
Qed.

Lemma Get_fold_Delete (l acc : bolt.Bucket) (k : list byte) :
  bolt.Get (fold_left (fun acc kv => bolt.Delete acc kv.1) l acc) k =
  if decide (k ∈ l.*1) then None else bolt.Get acc k.
Proof.
  revert acc. induction l as [|[k0 v0] l IH]; intros acc; simpl; [done|].
  rewrite IH, Get_Delete.
  destruct (decide (k ∈ l.*1)) as [Hin|Hnin].
  - rewrite decide_True; [done|]. by right.
  - destruct (decide (k0 = k)) as [->|Hne].
    + rewrite decide_True; [done|]. by left.
    + rewrite decide_False; [done|]. by intros [->|?]%elem_of_cons.
Qed.

Lemma Get_elem_of (b : bolt.Bucket) (k v : list byte) :
  bolt.Get b k = Some v -> (k, v) ∈ b.
Proof.
  induction b as [|[k0 v0] b IH]; simpl; [done|].
  destruct (decide (k0 = k)) as [->|].
  - intros [= ->]. by left.
  - intros. right. auto.
Qed.

Lemma Get_ForEach_Delete (b : bolt.Bucket) (k : list byte) :
  bolt.Get (bolt.ForEach_Delete b) k = None.
Proof.
  unfold bolt.ForEach_Delete. rewrite Get_fold_Delete.
  destruct (decide (k ∈ b.*1)) as [|Hnin]; [done|].
  destruct (bolt.Get b k) as [v|] eqn:Hget; [|done].
  exfalso. apply Hnin. apply Get_elem_of in Hget.
  apply list_elem_of_fmap. by exists (k, v).
Qed.

(** ** [DiskStore.open], case by case *)

Lemma open_cases (env : DiskStore.Env) (s : DiskStore.t) (w : bolt.World) :
  open_outcome env s w (DiskStore.open env s w).
Proof.
  unfold DiskStore.open.
  destruct (DiskStore.opened s) eqn:Hopened.
  { by apply open_counts. }
  unfold bolt.Open.
  destruct (DiskStore.Open_fault env) as [msg|] eqn:HOpen.
  { by apply open_Open_fails. }
  unfold bolt.Update, bolt.content. simpl.
  destruct (DiskStore.init_fault env) as [msg|] eqn:Hinit.
  { by apply open_init_fails. }
  rewrite lookup_insert_eq. simpl.
  pose proof (open_opens env s w Hopened HOpen Hinit) as H.
  unfold world_after_init, tx_with_bucket in H.
  unfold DiskStore.create_bucket, bolt.CreateBucketIfNotExists.
  change (list_byte_of_string DiskStore.DefaultDiskStorePath) with bucket_name.
  change bucket_name with
    ("."%byte :: list_byte_of_string "k6.kv") at 1.
  cbv iota. fold bucket_name.
  destruct (bolt.Tx_Bucket (default [] (bolt.files w !! DiskStore.path s))
              bucket_name) eqn:Hb; simpl; by rewrite insert_insert_eq.
Qed.

(** ** Calls on a consistent disk store whose engine reports no error *)

Lemma store_bucket_after_init (s : DiskStore.t) (w : bolt.World) b h c :
  store_bucket
    (DiskStore.mk (DiskStore.path s) h b true c)
    (world_after_init (DiskStore.path s) w) =
  Some (default [] (store_bucket s w)).
Proof.
  unfold store_bucket, world_after_init, tx_with_bucket. simpl.
  rewrite lookup_insert_eq. simpl.
  destruct (bolt.Tx_Bucket (default [] (bolt.files w !! DiskStore.path s))
              bucket_name) as [b0|] eqn:Hb; simpl; [done|].
  rewrite Tx_Bucket_app, Hb. by rewrite decide_True.
Qed.

Lemma open_healthy (env : DiskStore.Env) (s : DiskStore.t) (w : bolt.World) :
  consistent s w ->
  DiskStore.Open_fault env = None ->
  DiskStore.init_fault env = None ->
  exists s' w',
    DiskStore.open env s w = (s', w', None) /\
    consistent s' w' /\
    DiskStore.opened s' = true /\
    DiskStore.path s' = DiskStore.path s /\
    DiskStore.refCount s' = wrap64 (DiskStore.refCount s + 1) /\
    bolt.open_handles w' =
      (if DiskStore.opened s then bolt.open_handles w
       else S (bolt.open_handles w)) /\
    store_bucket s' w' = Some (default [] (store_bucket s w)).
Proof.
  intros [Hflag Hopen] HOpen Hinit.
  destruct (open_cases env s w) as [Hopened|msg _ Hf|msg _ _ Hf|Hclosed _ _];
    [|congruence|congruence|].
  - destruct (Hopen Hopened) as (Hpath & Hbucket & [b Hb]).
    eexists _, _. split; [done|].
    unfold consistent, store_bucket in *. simpl.
    rewrite Hb, Hopened. repeat split; try done. by rewrite <- Hflag.
  - eexists _, _. split; [done|].
    pose proof (store_bucket_after_init s w bucket_name
                  (bolt.mkDB true (DiskStore.path s))
                  (wrap64 (DiskStore.refCount s + 1))) as Hb.
    unfold consistent. simpl. rewrite Hb, Hclosed. repeat split; eauto.
Qed.

Lemma View_bucket {A : Type} (s : DiskStore.t) (w : bolt.World)
    (g : bolt.Bucket -> A) (e : error) (b : bolt.Bucket) :
  consistent s w ->
  DiskStore.opened s = true ->
  store_bucket s w = Some b ->
  bolt.View (DiskStore.handle s) None w
    (fun tx =>
       match bolt.Tx_Bucket tx (DiskStore.bucket s) with
       | None => Err e
       | Some b => Ok (g b)
       end) = Ok (g b).
Proof.
  intros [Hflag Hopen] Hopened Hb.
  destruct (Hopen Hopened) as (Hpath & Hbucket & _).
  unfold bolt.View, bolt.content. rewrite <- Hflag, Hopened, Hpath, Hbucket.
  simpl. unfold store_bucket in Hb. by rewrite Hb.
Qed.

Lemma Update_bucket (s : DiskStore.t) (w : bolt.World)
    (f : bolt.Bucket -> bolt.Bucket) (e : error) (b : bolt.Bucket) :
  consistent s w ->
  DiskStore.opened s = true ->
  store_bucket s w = Some b ->
  exists w',
    bolt.Update (DiskStore.handle s) None w
      (fun tx =>
         match bolt.Tx_Bucket tx (DiskStore.bucket s) with
         | None => Err e
         | Some b => Ok (bolt.Tx_write tx (DiskStore.bucket s) (f b))
         end) = (w', None) /\
    consistent s w' /\
    store_bucket s w' = Some (f b) /\
    bolt.open_handles w' = bolt.open_handles w.
Proof.
  intros [Hflag Hopen] Hopened Hb.
  destruct (Hopen Hopened) as (Hpath & Hbucket & _).
  unfold bolt.Update, bolt.content. rewrite <- Hflag, Hopened, Hpath, Hbucket.
  simpl. unfold store_bucket in Hb. rewrite Hb.
  eexists. split; [done|].
  assert (store_bucket s
            (bolt.mkWorld
               (<[DiskStore.path s :=
                    bolt.Tx_write (default [] (bolt.files w !! DiskStore.path s))
                      bucket_name (f b)]> (bolt.files w))
               (bolt.open_handles w)) = Some (f b)) as Hb'.
  { unfold store_bucket. simpl. rewrite lookup_insert_eq. simpl.
    apply Tx_Bucket_write. by rewrite Hb. }
  split; [|done].
  split; [done|]. intros _. by rewrite Hb'.
Qed.

Ltac open_healthily s w Hc :=
  let s1 := fresh "s1" in
  let w1 := fresh "w1" in
  let Hopen := fresh "Hopen" in
  let Hc1 := fresh "Hc1" in
  let Hopened := fresh "Hopened" in
  let Hpath := fresh "Hpath" in
  let Hcount := fresh "Hcount" in
  let Hhandles := fresh "Hhandles" in
  let Hb := fresh "Hb" in
  destruct (open_healthy DiskStore.healthy s w Hc eq_refl eq_refl)
    as (s1 & w1 & Hopen & Hc1 & Hopened & Hpath & Hcount & Hhandles & Hb);
  rewrite Hopen; cbn [DiskStore.tx_fault DiskStore.healthy].

Lemma stored_of_bucket (s : DiskStore.t) (w : bolt.World) b (k : string) :
  store_bucket s w = Some b ->
  stored s w k = bolt.Get b (list_byte_of_string k).
Proof. unfold stored. by intros ->. Qed.

Lemma stored_default (s : DiskStore.t) (w : bolt.World) (k : string) :
  bolt.Get (default [] (store_bucket s w)) (list_byte_of_string k) =
  stored s w k.
Proof. unfold stored. by destruct (store_bucket s w). Qed.

Section HealthyCalls.
Context {V : GoValue}.
Variables (s : DiskStore.t) (w : bolt.World).
Hypothesis Hc : consistent s w.

Lemma Get_healthy (key : string) :
  exists s' w',
    DiskStore.Get key DiskStore.healthy s w =
    (s', w',
     match stored s w key with
     | Some value => Ok (VBytes value)
     | None => Err (KeyNotFound key)
     end) /\
    borrowed s w s' w' /\
    store_bucket s' w' = Some (default [] (store_bucket s w)).
Proof.
  unfold DiskStore.Get. open_healthily s w Hc.
  rewrite (View_bucket s1 w1 (fun b => bolt.Get b (list_byte_of_string key))
             _ _ Hc1 Hopened Hb).
  rewrite stored_default. exists s1, w1.
  split; [by destruct (stored s w key)|]. unfold borrowed. by split_and!.
Qed.

Lemma Exists_healthy (key : string) :
  exists s' w',
    DiskStore.Exists key DiskStore.healthy s w =
    (s', w',
     Ok (match stored s w key with Some _ => true | None => false end)) /\
    borrowed s w s' w' /\
    store_bucket s' w' = Some (default [] (store_bucket s w)).
Proof.
  unfold DiskStore.Exists. open_healthily s w Hc.
  rewrite (View_bucket s1 w1
             (fun b => match bolt.Get b (list_byte_of_string key) with
                       | None => false | Some _ => true end)
             _ _ Hc1 Hopened Hb).
  rewrite stored_default. exists s1, w1.
  split; [by destruct (stored s w key)|]. unfold borrowed. by split_and!.
Qed.

Lemma Size_healthy :
  exists s' w',
    DiskStore.Size DiskStore.healthy s w =
    (s', w',
     Ok (wrap64 (Z.of_nat (length (default [] (store_bucket s w)))))) /\
    borrowed s w s' w' /\
    store_bucket s' w' = Some (default [] (store_bucket s w)).
Proof.
  unfold DiskStore.Size. open_healthily s w Hc.
  rewrite (View_bucket s1 w1
             (fun b => wrap64 (Z.of_nat (bolt.KeyN b))) _ _ Hc1 Hopened Hb).
  exists s1, w1. unfold borrowed. by split_and!.
Qed.

Lemma List_healthy (prefix : string) (limit : Z) :
  exists s' w',
    DiskStore.List prefix limit DiskStore.healthy s w =
    (s', w',
     Ok (DiskStore.scan prefix limit (default [] (store_bucket s w)) 0 [])) /\
    borrowed s w s' w' /\
    store_bucket s' w' = Some (default [] (store_bucket s w)).
Proof.
  unfold DiskStore.List. open_healthily s w Hc.
  rewrite (View_bucket s1 w1
             (fun b => DiskStore.scan prefix limit b 0 []) _ _ Hc1 Hopened Hb).
  exists s1, w1. unfold borrowed. by split_and!.
Qed.

Lemma write_healthy (f : bolt.Bucket -> bolt.Bucket)
    (e : DiskStore.t -> error) (ctx : string) :
  exists s' w',
    match DiskStore.open DiskStore.healthy s w with
    | (s0, w0, Some err) =>
        (s0, w0, Some (Wrapped "failed to open disk store" err))
    | (s0, w0, None) =>
        match
          bolt.Update (DiskStore.handle s0) None w0
            (fun tx =>
               match bolt.Tx_Bucket tx (DiskStore.bucket s0) with
               | None => Err (e s0)
               | Some b => Ok (bolt.Tx_write tx (DiskStore.bucket s0) (f b))
               end)
        with
        | (w1, Some err) => (s0, w1, Some (Wrapped ctx err))
        | (w1, None) => (s0, w1, None)
        end
    end = (s', w', None) /\
    borrowed s w s' w' /\
    store_bucket s' w' = Some (f (default [] (store_bucket s w))).
Proof.
  open_healthily s w Hc.
  destruct (Update_bucket s1 w1 f (e s1) _ Hc1 Hopened Hb)
    as (w2 & Hupd & Hc2 & Hb2 & Hh2).
  rewrite Hupd. exists s1, w2. unfold borrowed. rewrite Hh2. by split_and!.
Qed.

Lemma Set_healthy (key : string) (value : any) (data : list byte) :
  value = VBytes data \/
  (exists text, value = VString text /\ data = list_byte_of_string text) ->
  exists s' w',
    DiskStore.Set_ key value DiskStore.healthy s w = (s', w', None) /\
    borrowed s w s' w' /\
    store_bucket s' w' =
    Some (bolt.Put (default [] (store_bucket s w))
            (list_byte_of_string key) data).
Proof.
  intros [->|(text & -> & ->)];
    exact (write_healthy (fun b => bolt.Put b (list_byte_of_string key) _)
             (fun _ => BucketNotFound None)
             "unable to insert value into disk store").
Qed.

Lemma Set_refused (key : string) (value : any) :
  match value with VBytes _ | VString _ => False | _ => True end ->
  exists s' w',
    DiskStore.Set_ key value DiskStore.healthy s w =
    (s', w', Some (UnsupportedValueType "disk" (TypeOf value))) /\
    borrowed s w s' w' /\
    store_bucket s' w' = Some (default [] (store_bucket s w)).
Proof.
  intros Hother. unfold DiskStore.Set_. open_healthily s w Hc.
  exists s1, w1. unfold borrowed. destruct value; try done; by split_and!.
Qed.

Lemma Delete_healthy (key : string) :
  exists s' w',
    DiskStore.Delete key DiskStore.healthy s w = (s', w', None) /\
    borrowed s w s' w' /\
    store_bucket s' w' =
    Some (bolt.Delete (default [] (store_bucket s w))
            (list_byte_of_string key)).
Proof.
  exact (write_healthy (fun b => bolt.Delete b (list_byte_of_string key))
           (fun s0 => BucketNotFound (Some (DiskStore.bucket s0)))
           "unable to delete value from disk store").
Qed.

Lemma Clear_healthy :
  exists s' w',
    DiskStore.Clear DiskStore.healthy s w = (s', w', None) /\
    borrowed s w s' w' /\
    store_bucket s' w' =
    Some (bolt.ForEach_Delete (default [] (store_bucket s w))).
Proof.
  exact (write_healthy bolt.ForEach_Delete
           (fun s0 => BucketNotFound (Some (DiskStore.bucket s0)))
           "unable to clear disk store").
Qed.

Lemma Close_healthy :
  exists s' w',
    DiskStore.Close DiskStore.healthy s w = (s', w', None) /\
    consistent s' w' /\
    DiskStore.path s' = DiskStore.path s /\
    store_bucket s' w' = store_bucket s w.
Proof.
  destruct Hc as [Hflag Hopen]. unfold DiskStore.Close, bolt.Close.
  destruct (DiskStore.opened s) eqn:Hopened; simpl; [|by eauto 10].
  destruct (Hopen eq_refl) as (Hpath & Hbucket & Hb).
  destruct (0 <? wrap64 (DiskStore.refCount s - 1)).
  - eexists _, _. split; [done|]. unfold consistent. simpl.
    by split_and!.
  - rewrite <- Hflag. eexists _, _. split; [done|]. by split_and!.
Qed.
End HealthyCalls.

(** ** One call and a history of calls, against the specification's view *)

Lemma decide_bytes_of_string {A : Type} (k1 k2 : string) (x y : A) :
  (if decide (list_byte_of_string k1 = list_byte_of_string k2) then x else y) =
  (if decide (k1 = k2) then x else y).
Proof.
  destruct (decide (k1 = k2)) as [->|Hne].
  - by rewrite decide_True.
  - rewrite decide_False; [done|]. by intros ?%list_byte_of_string_inj.
Qed.

Section CallsAgainstHistory.
Context {V : GoValue}.



Lemma call_disk (o : op) (s : DiskStore.t) (w : bolt.World) :
  consistent s w ->
  exists s' w' err,
    call o DiskStore.healthy (s, w) = (s', w', err) /\
    consistent s' w' /\
    DiskStore.path s' = DiskStore.path s /\
    (forall k,
        stored s' w' k =
        match mutation_on k o with
        | Some change => change
        | None => stored s w k
        end) /\
    (o <> OpClose -> borrowed s w s' w').
Proof.
  intros Hc.
  destruct o as [key|key value|key|key| | |prefix limit|]; simpl.
  - destruct (Get_healthy s w Hc key) as (s' & w' & -> & Hb & Hbucket).
    eexists _, _, _. split; [done|]. destruct Hb as (? & ? & ? & ?).
    split_and!; try done.
    intros k. by rewrite (stored_of_bucket _ _ _ _ Hbucket), stored_default.
  - destruct value as [|data|text|o].
    + destruct (Set_refused s w Hc key VNil I) as (s' & w' & -> & Hb & Hbucket).
      eexists _, _, _. split; [done|]. destruct Hb as (? & ? & ? & ?).
      split_and!; try done.
      intros k. by rewrite (stored_of_bucket _ _ _ _ Hbucket), stored_default.
    + destruct (Set_healthy s w Hc key (VBytes data) data (or_introl eq_refl))
        as (s' & w' & -> & Hb & Hbucket).
      eexists _, _, _. split; [done|]. destruct Hb as (? & ? & ? & ?).
      split_and!; try done.
      intros k. rewrite (stored_of_bucket _ _ _ _ Hbucket), Get_Put.
      rewrite decide_bytes_of_string, stored_default. by case_decide.
    + destruct (Set_healthy s w Hc key (VString text)
                  (list_byte_of_string text)
                  (or_intror (ex_intro _ text (conj eq_refl eq_refl))))
        as (s' & w' & -> & Hb & Hbucket).
      eexists _, _, _. split; [done|]. destruct Hb as (? & ? & ? & ?).
      split_and!; try done.
      intros k. rewrite (stored_of_bucket _ _ _ _ Hbucket), Get_Put.
      rewrite decide_bytes_of_string, stored_default. by case_decide.
    + destruct (Set_refused s w Hc key (VOther o) I)
        as (s' & w' & -> & Hb & Hbucket).
      eexists _, _, _. split; [done|]. destruct Hb as (? & ? & ? & ?).
      split_and!; try done.
      intros k. by rewrite (stored_of_bucket _ _ _ _ Hbucket), stored_default.
  - destruct (Delete_healthy s w Hc key) as (s' & w' & -> & Hb & Hbucket).
    eexists _, _, _. split; [done|]. destruct Hb as (? & ? & ? & ?).
    split_and!; try done.
    intros k. rewrite (stored_of_bucket _ _ _ _ Hbucket), Get_Delete.
    rewrite decide_bytes_of_string, stored_default. by case_decide.
  - destruct (Exists_healthy s w Hc key) as (s' & w' & -> & Hb & Hbucket).
    eexists _, _, _. split; [done|]. destruct Hb as (? & ? & ? & ?).
    split_and!; try done.
    intros k. by rewrite (stored_of_bucket _ _ _ _ Hbucket), stored_default.
  - destruct (Clear_healthy s w Hc) as (s' & w' & -> & Hb & Hbucket).
    eexists _, _, _. split; [done|]. destruct Hb as (? & ? & ? & ?).
    split_and!; try done.
    intros k. by rewrite (stored_of_bucket _ _ _ _ Hbucket), Get_ForEach_Delete.
  - destruct (Size_healthy s w Hc) as (s' & w' & -> & Hb & Hbucket).
    eexists _, _, _. split; [done|]. destruct Hb as (? & ? & ? & ?).
    split_and!; try done.
    intros k. by rewrite (stored_of_bucket _ _ _ _ Hbucket), stored_default.
  - destruct (List_healthy s w Hc prefix limit)
      as (s' & w' & -> & Hb & Hbucket).
    eexists _, _, _. split; [done|]. destruct Hb as (? & ? & ? & ?).
    split_and!; try done.
    intros k. by rewrite (stored_of_bucket _ _ _ _ Hbucket), stored_default.
  - destruct (Close_healthy s w Hc) as (s' & w' & -> & Hc' & Hpath & Hbucket).
    eexists _, _, _. split; [done|]. split_and!; try done.
    intros k. unfold stored. by rewrite Hbucket.
Qed.

Lemma run_disk (history : list op) (s : DiskStore.t) (w : bolt.World) :
  consistent s w ->
  let st := run (under DiskStore.healthy history) (s, w) in
  consistent st.1 st.2 /\
  DiskStore.path st.1 = DiskStore.path s /\
  forall k,
    stored st.1 st.2 k =
    match last_mutation k history with
    | Some change => change
    | None => stored s w k
    end.
Proof.
  revert s w. induction history as [|o later IH]; intros s w Hc; simpl; [done|].
  destruct (call_disk o s w Hc) as (s' & w' & err & Hcall & Hc' & Hpath & Hst & _).
  unfold run in *. simpl. rewrite Hcall. simpl.
  destruct (IH s' w' Hc') as (Hc'' & Hpath' & Hst').
  split_and!; [done|congruence|].
  intros k. rewrite Hst', Hst. by destruct (last_mutation k later).
Qed.
End CallsAgainstHistory.

(** ** What [Set] accepts *)




Lemma new_store_consistent (p : string) (w : bolt.World) :
  consistent (new_store p) w.
Proof. by split. Qed.


(** ** [SerializedStore.Set] *)

Lemma DiskStore_Set_bytes_error {V : GoValue}
    (key : string) (data : list byte)
    (env : DiskStore.Env) (s : DiskStore.t) (w : bolt.World) :
  from_option is_unsupported_value_type false
    (DiskStore.Set_ key (VBytes data) env s w).2 = false.
Proof.
  unfold DiskStore.Set_.
  destruct (DiskStore.open env s w) as [[s' w'] [err|]]; simpl; [done|].
  by destruct (bolt.Update _ _ _ _) as [w'' [err|]].
Qed.

(** C10. [SerializedStore.Set] over the memory store and over the disk
    store: when the serializer fails, the call returns the wrapped
    serializer error and the backend is left as it was; when the
    serializer succeeds, the call is the backend's [Set] on the serialized
    byte slice, and that call never returns the "unsupported value type"
    error. [StringSerializer.Serialize] has a result for every value. *)
Theorem SerializedStore_Set_never_unsupported {V : GoValue}
    (sr : Serializer) (key : string) (value : any)
    (m : MemoryStore.t) (env : DiskStore.Env)
    (d : DiskStore.t) (w : bolt.World) :
  let on_memory := SerializedStore.mk m sr in
  let on_disk := SerializedStore.mk (d, w) sr in
  match Serialize sr value with
  | Err err =>
      SerializedStore.Set_ key value tt on_memory =
        (on_memory, Some (Wrapped "failed to serialize value" err)) /\
      SerializedStore.Set_ key value env on_disk =
        (on_disk, Some (Wrapped "failed to serialize value" err))
  | Ok data =>
      SerializedStore.Set_ key value tt on_memory =
        (SerializedStore.mk (MemoryStore.Set_ key (VBytes data) m).1 sr, None) /\
      SerializedStore.Set_ key value env on_disk =
        (SerializedStore.mk (DiskStore.Set_ key (VBytes data) env d w).1 sr,
         (DiskStore.Set_ key (VBytes data) env d w).2) /\
      from_option is_unsupported_value_type false
        (SerializedStore.Set_ key value env on_disk).2 = false
  end /\
  exists data, StringSerializer.Serialize value = Ok data.
Proof.
  intros on_memory on_disk. split; [|apply StringSerializer_Serialize_total].
  unfold SerializedStore.Set_, on_memory, on_disk. simpl.
  destruct (Serialize sr value) as [data|err]; [|done].
  pose proof (DiskStore_Set_bytes_error key data env d w) as Herr.
  destruct (DiskStore.Set_ key (VBytes data) env d w) as [[d' w'] r].
  by split_and!.
Qed.

(** ** Get and Exists after a history *)



(** ** The life of a disk store *)

Lemma Close_keeps_open (env : DiskStore.Env) (s : DiskStore.t) (w : bolt.World) :
  DiskStore.opened s = true ->
  0 < wrap64 (DiskStore.refCount s - 1) ->
  DiskStore.Close env s w =
  (DiskStore.mk (DiskStore.path s) (DiskStore.handle s) (DiskStore.bucket s)
     true (wrap64 (DiskStore.refCount s - 1)), w, None).
Proof.
  intros Hopened Hpos. unfold DiskStore.Close. rewrite Hopened. simpl.
  by rewrite (proj2 (Z.ltb_lt _ _) Hpos).
Qed.

Lemma Close_last (env : DiskStore.Env) (s : DiskStore.t) (w : bolt.World) :
  DiskStore.opened s = true ->
  bolt.db_opened (DiskStore.handle s) = true ->
  wrap64 (DiskStore.refCount s - 1) <= 0 ->
  DiskStore.Close env s w =
  (DiskStore.mk (DiskStore.path s)
     (bolt.mkDB false (bolt.db_path (DiskStore.handle s)))
     (DiskStore.bucket s)
     (match DiskStore.Close_fault env with Some _ => true | None => false end)
     (wrap64 (DiskStore.refCount s - 1)),
   bolt.mkWorld (bolt.files w) (Nat.pred (bolt.open_handles w)),
   option_map External (DiskStore.Close_fault env)).
Proof.
  intros Hopened Hhandle Hle. unfold DiskStore.Close, bolt.Close.
  rewrite Hopened, Hhandle. simpl.
  rewrite (proj2 (Z.ltb_ge _ _) Hle).
  by destruct (DiskStore.Close_fault env).
Qed.



(** ** The reference count *)

(** Without interference, a call of [open] that succeeds adds one to the
    count, on the path that finds the store open as on the path that opens
    it. *)
Lemma open_success_counts (env : DiskStore.Env) (s s' : DiskStore.t)
    (w w' : bolt.World) :
  DiskStore.open env s w = (s', w', None) ->
  DiskStore.refCount s' = wrap64 (DiskStore.refCount s + 1) /\
  DiskStore.opened s' = true.
Proof.
  intros Hopen.
  destruct (open_cases env s w) as [Hopened|msg ? ?|msg ? ? ?|? ? ?];
    by simplify_eq.
Qed.

Lemma solo_unfold (fuel : nat) (env : DiskStore.Env) (g : nat)
    (sh : OpenRace.shared) (at_ : OpenRace.pc) :
  OpenRace.solo (S fuel) env g sh at_ =
  match at_ with
  | OpenRace.Returned err => Some (sh, err)
  | _ =>
      match OpenRace.step env g sh at_ with
      | None => None
      | Some (sh', at') => OpenRace.solo fuel env g sh' at'
      end
  end.
Proof. by destruct at_. Qed.

(** A goroutine that runs [open] alone does what [DiskStore.open] says. *)
Lemma solo_is_open (env : DiskStore.Env) (g : nat) (s : DiskStore.t)
    (w : bolt.World) :
  OpenRace.solo 11 env g (OpenRace.mkShared s w None) OpenRace.L46 =
  Some (OpenRace.mkShared (DiskStore.open env s w).1.1
          (DiskStore.open env s w).1.2 None,
        (DiskStore.open env s w).2).
Proof.
  unfold DiskStore.open.
  rewrite solo_unfold. cbn [OpenRace.step OpenRace.store].
  destruct (DiskStore.opened s) eqn:Hopened.
  { rewrite solo_unfold. cbn [OpenRace.step OpenRace.store OpenRace.world OpenRace.lock].
    rewrite solo_unfold. by rewrite Hopened. }
  do 3 (rewrite solo_unfold;
        cbn [OpenRace.step OpenRace.store OpenRace.world OpenRace.lock];
        rewrite ?Hopened).
  destruct (bolt.Open _ _ _) as [w1 [handler|err]]; [|by rewrite solo_unfold].
  rewrite solo_unfold;
        cbn [OpenRace.step OpenRace.store OpenRace.world OpenRace.lock].
  destruct (bolt.Update _ _ _ _) as [w2 [err|]]; [by rewrite solo_unfold|].
  do 6 (rewrite solo_unfold;
        cbn [OpenRace.step OpenRace.store OpenRace.world OpenRace.lock
             DiskStore.path DiskStore.handle DiskStore.bucket DiskStore.opened
             DiskStore.refCount]).
  by destruct s.
Qed.

(** C2, on the code. Two goroutines call [open] on a new store and both
    read [opened] as false before either takes the lock. The first to
    lock opens the database and counts itself; the second then finds
    [opened] set at line 54 and returns [nil] without adding to the count.
    Both calls have succeeded and the count is 1. *)
Theorem open_race_loses_a_count :
  match
    OpenRace.run DiskStore.healthy race_schedule race_start
      [OpenRace.L46; OpenRace.L46]
  with
  | Some (final, goroutines) =>
      goroutines = [OpenRace.Returned None; OpenRace.Returned None] /\
      DiskStore.opened (OpenRace.store final) = true /\
      DiskStore.refCount (OpenRace.store final) = 1
  | None => False
  end.
Proof. vm_compute. by split_and!. Qed.

Lemma wrap64_id (z : Z) : in_int64 z -> wrap64 z = z.
Proof.
  unfold in_int64, wrap64. intros Hz.
  rewrite Z.mod_small; lia.
Qed.

(** The ways a transaction of a method can end: the handle is closed, the
    engine reports an error, the bucket is missing or found. *)
Ltac transaction_cases env :=
  (destruct (negb _); [done|]);
  (destruct (DiskStore.tx_fault env); [done|]);
  destruct (bolt.Tx_Bucket _ _); try done.

(** Every method but [Close] leaves the store as its call of [open] left
    it, and holds as many handles open. *)
Lemma call_is_open {V : GoValue} (o : op) (env : DiskStore.Env)
    (s : DiskStore.t) (w : bolt.World) :
  o <> OpClose ->
  (call o env (s, w)).1.1 = (DiskStore.open env s w).1.1 /\
  bolt.open_handles (call o env (s, w)).1.2 =
  bolt.open_handles (DiskStore.open env s w).1.2.
Proof.
  intros Ho.
  destruct o as [key|key value|key|key| | |prefix limit|]; [..|done];
    cbn [call Store.Get Store.Set_ Store.Delete Store.Exists Store.Clear
         Store.Size Store.List DiskStore_Store fst snd];
    unfold DiskStore.Get, DiskStore.Set_, DiskStore.Delete, DiskStore.Exists,
      DiskStore.Clear, DiskStore.Size, DiskStore.List, bolt.View, bolt.Update;
    destruct (DiskStore.open env s w) as [[s1 w1] [err|]];
    cbn [fst snd]; try done.
  - transaction_cases env. by destruct (bolt.Get _ _).
  - destruct value; try done; transaction_cases env.
  - transaction_cases env.
  - transaction_cases env.
  - transaction_cases env.
  - transaction_cases env.
  - transaction_cases env.
Qed.

Lemma call_counting {V : GoValue} (h0 : nat) (n : Z) (o : op)
    (env : DiskStore.Env) (s : DiskStore.t) (w : bolt.World) :
  no_Close_or_init_error env ->
  0 <= n < 2 ^ 63 - 1 ->
  counting h0 n s w ->
  counting h0 (n + 1) (call o env (s, w)).1.1 (call o env (s, w)).1.2.
Proof.
  intros [HClose Hinit] Hn (Hflag & Hcount & Hle & Hh).
  assert (o = OpClose \/ o <> OpClose) as [->|Ho]
    by (destruct o; (by left) || (by right)).
  - cbn [call Store.Close DiskStore_Store fst snd].
    unfold DiskStore.Close, bolt.Close. rewrite HClose.
    destruct (DiskStore.opened s) eqn:Hopened; cbn [negb fst snd].
    + rewrite <- Hflag.
      rewrite (wrap64_id (DiskStore.refCount s - 1))
        by (unfold in_int64; lia).
      destruct (0 <? DiskStore.refCount s - 1) eqn:Hpos; unfold counting;
        cbn [fst snd DiskStore.opened DiskStore.handle DiskStore.refCount
             bolt.db_opened bolt.open_handles option_map].
      * apply Z.ltb_lt in Hpos. split_and!; [done|lia|lia|done].
      * apply Z.ltb_ge in Hpos. split_and!; [done|lia|lia|].
        rewrite Hh. lia.
    + unfold counting. rewrite Hopened. split_and!; [done|done|lia|done].
  - unfold counting.
    destruct (call_is_open o env s w Ho) as [-> ->].
    destruct (open_cases env s w) as [Hopened|msg Hclosed ?|msg ? ? ?|Hclosed ? ?];
      cbn [fst snd DiskStore.opened DiskStore.handle DiskStore.refCount
           bolt.db_opened bolt.open_handles world_after_init].
    + rewrite Hopened in *.
      rewrite wrap64_id by (unfold in_int64; lia).
      split_and!; [done|lia|lia|done].
    + rewrite Hclosed in *. split_and!; [done|done|lia|done].
    + congruence.
    + rewrite Hclosed in *. rewrite Hcount. change (wrap64 (0 + 1)) with 1.
      split_and!; [done|lia|lia|]. rewrite Hh. lia.
Qed.

Lemma run_counting {V : GoValue} (h0 : nat)
    (calls : list (op * DiskStore.Env)) (n : Z)
    (s : DiskStore.t) (w : bolt.World) :
  Forall (fun oe => no_Close_or_init_error oe.2) calls ->
  0 <= n ->
  n + Z.of_nat (length calls) < 2 ^ 63 ->
  counting h0 n s w ->
  counting h0 (n + Z.of_nat (length calls))
    (run calls (s, w)).1 (run calls (s, w)).2.
Proof.
  intros Hcalls. revert n s w.
  induction Hcalls as [|[o env] calls Henv Hcalls IH]; intros n s w Hn Hlen Hinv.
  - simpl. by rewrite Z.add_0_r.
  - simpl length in *. unfold run in *. simpl.
    destruct (call o env (s, w)) as [[s1 w1] err] eqn:Hcall.
    replace (n + Z.of_nat (S (length calls)))
      with ((n + 1) + Z.of_nat (length calls)) by lia.
    apply IH; [lia|lia|].
    pose proof (call_counting h0 n o env s w Henv) as Hstep.
    rewrite Hcall in Hstep. apply Hstep; [lia|done].
Qed.

(** What holds of claim C1 on the runs in which the engine reports no
    error from [handle.Close] and from the creation of the bucket: the
    handle of the store is open exactly when the count is positive, the
    process holds one handle more than before exactly then, and the count
    is never negative. *)
Lemma counted_without_Close_or_init_errors {V : GoValue}
    (calls : list (op * DiskStore.Env)) (p : string) (w : bolt.World) :
  Forall (fun oe => no_Close_or_init_error oe.2) calls ->
  Z.of_nat (length calls) < 2 ^ 63 ->
  let st := run calls (new_store p, w) in
  counted st.1 /\
  bolt.open_handles st.2 =
    (bolt.open_handles w +
     (if (0 <? DiskStore.refCount st.1)%Z then 1 else 0))%nat.
Proof.
  intros Hcalls Hlen st.
  assert (counting (bolt.open_handles w) (0 + Z.of_nat (length calls)) st.1 st.2)
    as (Hflag & Hcount & _ & Hh).
  { apply run_counting; [done|lia|lia|].
    unfold counting. simpl. split_and!; [done|done|done|lia]. }
  unfold counted. rewrite <- Hflag, Hh.
  destruct (DiskStore.opened st.1).
  - rewrite (proj2 (Z.ltb_lt _ _) Hcount). split_and!; [done|lia|done].
  - rewrite Hcount. simpl. split_and!; [split; [done|lia]|done|done].
Qed.

Lemma Close_unopened (env : DiskStore.Env) (s : DiskStore.t) (w : bolt.World) :
  DiskStore.opened s = false ->
  DiskStore.Close env s w = (s, w, None).
Proof. intros Hclosed. unfold DiskStore.Close. by rewrite Hclosed. Qed.

(** C1, on the code. After one Set the count is 1. A [Close] during which
    [handle.Close] fails returns that error after the count went to 0 and
    before the flag is cleared: the count is 0, the store is still marked
    open and its handle is closed. The next [Close] passes the test of the
    flag and brings the count to -1. *)
Theorem Close_error_drives_refCount_negative {V : GoValue} :
  let start := (new_store "kv.db", bolt.mkWorld ∅ 0) in
  let st1 := run [(OpSet "key" (VString "value"), DiskStore.healthy)] start in
  let st2 := run [(OpClose, Close_fails)] st1 in
  let st3 := run [(OpClose, DiskStore.healthy)] st2 in
  DiskStore.refCount st1.1 = 1 /\
  (call OpClose Close_fails st1).2 = Some (External "close: input/output error") /\
  (DiskStore.refCount st2.1 = 0 /\ DiskStore.opened st2.1 = true /\
   bolt.db_opened (DiskStore.handle st2.1) = false) /\
  DiskStore.refCount st3.1 = -1.
Proof. vm_compute. by split_and!. Qed.

(** ** The bucket is where the methods look for it *)

Lemma open_bucket_in_place (env : DiskStore.Env) (s : DiskStore.t)
    (w : bolt.World) :
  bucket_in_place s w ->
  bucket_in_place (DiskStore.open env s w).1.1 (DiskStore.open env s w).1.2 /\
  match (DiskStore.open env s w).2 with
  | None => DiskStore.opened (DiskStore.open env s w).1.1 = true
  | Some err => caused_by_bucket_not_found err = false
  end.
Proof.
  intros Hin.
  destruct (open_cases env s w) as [Hopened|msg Hclosed ?|msg Hclosed ? ?|Hclosed ? ?];
    cbn [fst snd].
  - split; [|done]. intros _. by apply Hin.
  - done.
  - split; [|done]. intros Hopened. congruence.
  - split; [|done]. intros _. split; [done|].
    unfold bolt.content, world_after_init, tx_with_bucket. simpl.
    rewrite lookup_insert_eq. simpl.
    destruct (bolt.Tx_Bucket (default [] (bolt.files w !! DiskStore.path s))
                bucket_name) as [b|] eqn:Hb; simpl.
    + by rewrite Hb.
    + rewrite Tx_Bucket_app, Hb. by rewrite decide_True.
Qed.

Lemma View_bucket_found {A : Type} (s : DiskStore.t) (w : bolt.World)
    (fault : option string) (g : bolt.Bucket -> A) (e : error) :
  bucket_in_place s w ->
  DiskStore.opened s = true ->
  match
    bolt.View (DiskStore.handle s) fault w
      (fun tx =>
         match bolt.Tx_Bucket tx (DiskStore.bucket s) with
         | None => Err e
         | Some b => Ok (g b)
         end)
  with
  | Ok _ => True
  | Err err => caused_by_bucket_not_found err = false
  end.
Proof.
  intros Hin Hopened. destruct (Hin Hopened) as (-> & [b Hb]).
  unfold bolt.View. destruct (negb _); [done|].
  destruct fault; [done|]. by rewrite Hb.
Qed.

Lemma Update_bucket_found (s : DiskStore.t) (w : bolt.World)
    (fault : option string) (f : bolt.Bucket -> bolt.Bucket) (e : error) :
  bucket_in_place s w ->
  DiskStore.opened s = true ->
  let r :=
    bolt.Update (DiskStore.handle s) fault w
      (fun tx =>
         match bolt.Tx_Bucket tx (DiskStore.bucket s) with
         | None => Err e
         | Some b => Ok (bolt.Tx_write tx (DiskStore.bucket s) (f b))
         end) in
  bucket_in_place s r.1 /\
  from_option caused_by_bucket_not_found false r.2 = false.
Proof.
  intros Hin Hopened. destruct (Hin Hopened) as (Hname & [b Hb]).
  unfold bolt.Update. destruct (negb _); [done|].
  destruct fault; [done|]. rewrite Hname, Hb. simpl.
  split; [|done]. intros _. split; [done|].
  unfold bolt.content at 1. simpl. rewrite lookup_insert_eq. simpl.
  rewrite Tx_Bucket_write; [done|]. by rewrite Hb.
Qed.

Lemma call_bucket_found {V : GoValue} (o : op) (env : DiskStore.Env)
    (s : DiskStore.t) (w : bolt.World) :
  bucket_in_place s w ->
  bucket_in_place (call o env (s, w)).1.1 (call o env (s, w)).1.2 /\
  from_option caused_by_bucket_not_found false (call o env (s, w)).2 = false.
Proof.
  intros Hin.
  destruct (open_bucket_in_place env s w Hin) as [Hin1 Hres].
  destruct o as [key|key value|key|key| | |prefix limit|];
    cbn [call Store.Get Store.Set_ Store.Delete Store.Exists Store.Clear
         Store.Size Store.List Store.Close DiskStore_Store fst snd];
    unfold DiskStore.Get, DiskStore.Set_, DiskStore.Delete, DiskStore.Exists,
      DiskStore.Clear, DiskStore.Size, DiskStore.List.
  8: {
    unfold DiskStore.Close, bolt.Close.
    destruct (DiskStore.opened s) eqn:Hopened; cbn [negb fst snd]; [|done].
    destruct (0 <? _); cbn [fst snd].
    { split; [|done]. intros _. by apply Hin. }
    destruct (bolt.db_opened (DiskStore.handle s));
      destruct (DiskStore.Close_fault env); cbn [fst snd option_map];
      (split; [|done]); intros Ho; try done; by apply Hin. }
  all: destruct (DiskStore.open env s w) as [[s1 w1] [err|]];
    cbn [fst snd] in *; [done|].
  - pose proof (View_bucket_found s1 w1 (DiskStore.tx_fault env)
                  (fun b => bolt.Get b (list_byte_of_string key))
                  (BucketNotFound (Some (DiskStore.bucket s1))) Hin1 Hres) as Hv.
    destruct (bolt.View _ _ _ _) as [[value|]|err]; by cbn [fst snd].
  - destruct value as [|data|text|x]; [done| | |done].
    + pose proof (Update_bucket_found s1 w1 (DiskStore.tx_fault env)
                    (fun b => bolt.Put b (list_byte_of_string key) data)
                    (BucketNotFound None) Hin1 Hres) as [Hu He].
      destruct (bolt.Update _ _ _ _) as [w2 [err|]]; by cbn [fst snd] in *.
    + pose proof (Update_bucket_found s1 w1 (DiskStore.tx_fault env)
                    (fun b => bolt.Put b (list_byte_of_string key)
                                (list_byte_of_string text))
                    (BucketNotFound None) Hin1 Hres) as [Hu He].
      destruct (bolt.Update _ _ _ _) as [w2 [err|]]; by cbn [fst snd] in *.
  - pose proof (Update_bucket_found s1 w1 (DiskStore.tx_fault env)
                  (fun b => bolt.Delete b (list_byte_of_string key))
                  (BucketNotFound (Some (DiskStore.bucket s1))) Hin1 Hres)
      as [Hu He].
    destruct (bolt.Update _ _ _ _) as [w2 [err|]]; by cbn [fst snd] in *.
  - pose proof (View_bucket_found s1 w1 (DiskStore.tx_fault env)
                  (fun b => match bolt.Get b (list_byte_of_string key) with
                            | None => false | Some _ => true end)
                  (BucketNotFound (Some (DiskStore.bucket s1))) Hin1 Hres) as Hv.
    destruct (bolt.View _ _ _ _) as [found|err]; by cbn [fst snd].
  - pose proof (Update_bucket_found s1 w1 (DiskStore.tx_fault env)
                  bolt.ForEach_Delete
                  (BucketNotFound (Some (DiskStore.bucket s1))) Hin1 Hres)
      as [Hu He].
    destruct (bolt.Update _ _ _ _) as [w2 [err|]]; by cbn [fst snd] in *.
  - pose proof (View_bucket_found s1 w1 (DiskStore.tx_fault env)
                  (fun b => wrap64 (Z.of_nat (bolt.KeyN b)))
                  (BucketNotFound (Some (DiskStore.bucket s1))) Hin1 Hres) as Hv.
    destruct (bolt.View _ _ _ _) as [size|err]; by cbn [fst snd].
  - pose proof (View_bucket_found s1 w1 (DiskStore.tx_fault env)
                  (fun b => DiskStore.scan prefix limit b 0 [])
                  (BucketNotFound (Some (DiskStore.bucket s1))) Hin1 Hres) as Hv.
    destruct (bolt.View _ _ _ _) as [entries|err]; by cbn [fst snd].
Qed.

Lemma run_bucket_in_place {V : GoValue} (calls : list (op * DiskStore.Env))
    (s : DiskStore.t) (w : bolt.World) :
  bucket_in_place s w ->
  bucket_in_place (run calls (s, w)).1 (run calls (s, w)).2.
Proof.
  revert s w. induction calls as [|[o env] calls IH]; intros s w Hin; [done|].
  unfold run in *. simpl.
  destruct (call_bucket_found o env s w Hin) as [Hin1 _].
  destruct (call o env (s, w)) as [[s1 w1] err]. by apply IH.
Qed.

(** C8. In every state a new disk store reaches, whatever the calls made
    on it and whatever the engine answered: when [open] succeeds, the name
    the methods look up, [s.bucket], is the name of the bucket [open]
    creates and the file of the handle holds a bucket of that name; and no
    method returns an error that comes from a "bucket not found" branch. *)
Theorem bucket_not_found_unreachable {V : GoValue}
    (calls : list (op * DiskStore.Env)) (p : string) (w : bolt.World)
    (o : op) (env : DiskStore.Env) :
  let st := run calls (new_store p, w) in
  match DiskStore.open env st.1 st.2 with
  | (s', w', None) =>
      DiskStore.bucket s' = list_byte_of_string DiskStore.DefaultDiskStorePath /\
      is_Some (bolt.Tx_Bucket (bolt.content (DiskStore.handle s') w')
                 (DiskStore.bucket s'))
  | _ => True
  end /\
  from_option caused_by_bucket_not_found false (call o env st).2 = false.
Proof.
  intros st.
  assert (bucket_in_place st.1 st.2) as Hin.
  { apply run_bucket_in_place. intros Hopened. discriminate. }
  split.
  - destruct (open_bucket_in_place env st.1 st.2 Hin) as [Hin1 Hres].
    destruct (DiskStore.open env st.1 st.2) as [[s' w'] [err|]]; [done|].
    cbn [fst snd] in *. destruct (Hin1 Hres) as [Hname Hb].
    by rewrite Hname.
  - destruct st as [s1 w1]. by apply call_bucket_found.
Qed.

(** ** Set then Get through a serializer *)


Lemma StringSerializer_returns_the_text :
  let V := Fragment.values in
  let s0 := SerializedStore.mk MemoryStore.NewMemoryStore
              StringSerializer.NewStringSerializer in
  let s1 :=
    (SerializedStore.Set_ (backend := MemoryStore_Store)
       "abc" (VOther (Fragment.Int 123)) tt s0).1 in
  (SerializedStore.Get (backend := MemoryStore_Store) "abc" tt s1).2 =
  Ok (VString "123").
Proof. reflexivity. Qed.



(** ** List *)

Lemma filter_test (prefix k : string) :
  String.eqb prefix "" || HasPrefix k prefix = HasPrefix k prefix.
Proof.
  destruct (String.eqb_spec prefix "") as [->|]; [|done].
  by rewrite HasPrefix_empty.
Qed.

Lemma strictly_sorted (l : list string) :
  StronglySorted String.le l -> NoDup l -> StronglySorted string_lt l.
Proof.
  induction 1 as [|k l Hl IH Hk]; intros Hnd; [constructor|].
  apply NoDup_cons in Hnd as [Hnotin Hnd].
  constructor; [by apply IH|].
  apply Forall_forall. intros k' Hin.
  apply string_le_lt; [by eapply Forall_forall in Hk|].
  by intros ->.
Qed.

Section MemoryList.
Context {V : GoValue}.

Lemma matching_keys_filter (prefix : string) (visit : list string) :
  MemoryStore.matching_keys prefix visit =
  filter (fun k => HasPrefix k prefix = true) visit.
Proof.
  unfold MemoryStore.matching_keys.
  assert (forall acc,
             fold_left
               (fun keys k =>
                  if String.eqb prefix "" || HasPrefix k prefix
                  then keys ++ [k] else keys) visit acc =
             acc ++ filter (fun k => HasPrefix k prefix = true) visit) as Hfold.
  { induction visit as [|k visit IH]; intros acc; simpl.
    - by rewrite app_nil_r.
    - rewrite IH, filter_cons, filter_test.
      destruct (HasPrefix k prefix); simpl; [|done].
      by rewrite <- app_assoc. }
  apply Hfold.
Qed.

Lemma collect_unbounded (s : MemoryStore.t) (limit : Z) (keys : list string) :
  limit <= 0 ->
  forall count entries,
    MemoryStore.collect s limit keys count entries =
    entries ++ (entry_of s <$> keys).
Proof.
  intros Hlimit. apply Z.ltb_ge in Hlimit.
  induction keys as [|k keys IH]; intros count entries; simpl.
  - by rewrite app_nil_r.
  - rewrite Hlimit. simpl. rewrite IH. by rewrite <- app_assoc.
Qed.

Lemma collect_bounded (s : MemoryStore.t) (limit : Z) (keys : list string) :
  0 < limit < 2 ^ 63 ->
  forall count entries,
    0 <= count <= limit ->
    MemoryStore.collect s limit keys count entries =
    entries ++ (entry_of s <$> take (Z.to_nat (limit - count)) keys).
Proof.
  intros Hlimit.
  induction keys as [|k keys IH]; intros count entries Hcount; simpl.
  - by rewrite take_nil, app_nil_r.
  - rewrite (proj2 (Z.ltb_lt 0 limit)) by lia. simpl.
    destruct (limit <=? count) eqn:Hreached.
    + apply Z.leb_le in Hreached.
      replace (limit - count) with 0 by lia. simpl. by rewrite app_nil_r.
    + apply Z.leb_gt in Hreached.
      rewrite wrap64_id by (unfold in_int64; lia).
      rewrite IH by lia.
      replace (Z.to_nat (limit - count)) with (S (Z.to_nat (limit - (count + 1))))
        by lia.
      simpl. by rewrite <- app_assoc.
Qed.

Lemma MemoryStore_List_visiting (visit : list string) (prefix : string)
    (limit : Z) (s : MemoryStore.t) :
  in_int64 limit ->
  visit ≡ₚ (map_to_list (MemoryStore.container s)).*1 ->
  exists entries,
    MemoryStore.List_visiting visit prefix limit s = Ok entries /\
    is_listing (fun k => MemoryStore.container s !! k) prefix limit entries.
Proof.
  intros Hlimit Hvisit. unfold MemoryStore.List_visiting.
  rewrite matching_keys_filter.
  set (keys := sort_Strings (filter (fun k => HasPrefix k prefix = true) visit)).
  eexists. split; [done|]. exists (entry_of s <$> keys).
  assert (keys ≡ₚ filter (fun k => HasPrefix k prefix = true) visit) as Hperm
    by apply merge_sort_Permutation.
  assert (forall k, k ∈ keys <->
                    HasPrefix k prefix = true /\
                    is_Some (MemoryStore.container s !! k)) as Hkeys.
  { intros k. rewrite Hperm, list_elem_of_filter, Hvisit.
    rewrite list_elem_of_fmap. split.
    - intros [Hp ([k' v] & -> & Hin)]. split; [done|].
      apply elem_of_map_to_list in Hin. by exists v.
    - intros [Hp [v Hv]]. split; [done|].
      exists (k, v). split; [done|]. by apply elem_of_map_to_list. }
  split_and!.
  - apply (StronglySorted_fmap _ string_lt); [done|].
    apply strictly_sorted.
    + apply StronglySorted_merge_sort; apply _.
    + rewrite Hperm. apply NoDup_filter. rewrite Hvisit.
      apply NoDup_fst_map_to_list.
  - intros k v. rewrite list_elem_of_fmap. split.
    + intros (k' & Heq & Hin). unfold entry_of in Heq. simplify_eq.
      apply Hkeys in Hin as [Hp [b Hb]]. exists b. by rewrite Hb.
    + intros (b & -> & Hb & Hp). exists k. split.
      * unfold entry_of. by rewrite Hb.
      * apply Hkeys. by split; [|exists b].
  - destruct (0 <? limit) eqn:Hpos.
    + apply Z.ltb_lt in Hpos. unfold in_int64 in Hlimit.
      rewrite collect_bounded by lia.
      rewrite Z.sub_0_r. simpl. by rewrite fmap_take.
    + apply Z.ltb_ge in Hpos. by rewrite collect_unbounded.
Qed.
End MemoryList.

Section DiskList.
Context {V : GoValue}.

Lemma scan_unbounded (prefix : string) (limit : Z) (cursor : bolt.Bucket) :
  limit <= 0 ->
  forall count entries,
    DiskStore.scan prefix limit cursor count entries =
    entries ++ (entry_at <$> filter (matches prefix) cursor).
Proof.
  intros Hlimit. apply Z.ltb_ge in Hlimit.
  induction cursor as [|[k v] cursor IH]; intros count entries; simpl.
  - by rewrite app_nil_r.
  - rewrite <- negb_orb, filter_test, filter_cons.
    destruct (decide (matches prefix (k, v))) as [Hp|Hp];
      unfold matches in Hp; simpl in Hp.
    + rewrite Hp, Hlimit. simpl. rewrite IH. by rewrite <- app_assoc.
    + apply not_true_is_false in Hp. rewrite Hp. simpl. apply IH.
Qed.

Lemma scan_bounded (prefix : string) (limit : Z) (cursor : bolt.Bucket) :
  0 < limit < 2 ^ 63 ->
  forall count entries,
    0 <= count <= limit ->
    DiskStore.scan prefix limit cursor count entries =
    entries ++
    (entry_at <$> take (Z.to_nat (limit - count)) (filter (matches prefix) cursor)).
Proof.
  intros Hlimit.
  induction cursor as [|[k v] cursor IH]; intros count entries Hcount; simpl.
  - rewrite filter_nil, take_nil. simpl. by rewrite app_nil_r.
  - rewrite <- negb_orb, filter_test, filter_cons.
    destruct (decide (matches prefix (k, v))) as [Hp|Hp];
      unfold matches in Hp; simpl in Hp;
      [|apply not_true_is_false in Hp; rewrite Hp; simpl; by apply IH].
    rewrite Hp. simpl.
    rewrite (proj2 (Z.ltb_lt 0 limit)) by lia. simpl.
    destruct (limit <=? count) eqn:Hreached.
    + apply Z.leb_le in Hreached.
      replace (limit - count) with 0 by lia. simpl. by rewrite app_nil_r.
    + apply Z.leb_gt in Hreached.
      rewrite wrap64_id by (unfold in_int64; lia).
      rewrite IH by lia.
      replace (Z.to_nat (limit - count)) with (S (Z.to_nat (limit - (count + 1))))
        by lia.
      simpl. by rewrite <- app_assoc.
Qed.

Lemma key_ordered_filter (P : list byte * list byte -> Prop)
    `{forall kv, Decision (P kv)} (b : bolt.Bucket) :
  key_ordered b -> key_ordered (filter P b).
Proof.
  unfold key_ordered. induction 1 as [|kv b Hb IH Hkv]; [constructor|].
  rewrite filter_cons. destruct (decide (P kv)); [|done].
  constructor; [done|].
  apply Forall_forall. intros kv' [_ Hin]%list_elem_of_filter.
  by eapply Forall_forall in Hkv.
Qed.

Lemma key_ordered_Get (b : bolt.Bucket) (k v : list byte) :
  key_ordered b -> (k, v) ∈ b <-> bolt.Get b k = Some v.
Proof.
  intros Hb. split; [|apply Get_elem_of].
  induction Hb as [|[k0 v0] b Hb IH Hk0]; simpl; [by intros ?%elem_of_nil|].
  intros [Heq|Hin]%elem_of_cons.
  - simplify_eq. by rewrite decide_True.
  - rewrite decide_False; [by apply IH|].
    intros ->. eapply Forall_forall in Hk0; [|done]. simpl in Hk0.
    by rewrite (proj2 (bytes_Compare_Eq k k)) in Hk0.
Qed.

Lemma scan_is_listing (prefix : string) (limit : Z) (b : bolt.Bucket) :
  in_int64 limit ->
  key_ordered b ->
  is_listing (fun k => bolt.Get b (list_byte_of_string k)) prefix limit
    (DiskStore.scan prefix limit b 0 []).
Proof.
  intros Hlimit Hb. exists (entry_at <$> filter (matches prefix) b). split_and!.
  - apply (StronglySorted_fmap _ (fun x y => bytes_Compare x.1 y.1 = Lt));
      [done|]. by apply key_ordered_filter.
  - intros k v. rewrite list_elem_of_fmap. split.
    + intros ([kb vb] & Heq & [Hp Hin]%list_elem_of_filter).
      unfold entry_at in Heq. simplify_eq. simpl in *.
      exists vb. split_and!; [done| |done].
      rewrite String.list_byte_of_string_of_list_byte.
      by apply key_ordered_Get.
    + intros (vb & -> & Hget & Hp).
      exists (list_byte_of_string k, vb). unfold entry_at, matches. simpl.
      rewrite String.string_of_list_byte_of_string. split; [done|].
      apply list_elem_of_filter. simpl.
      rewrite String.string_of_list_byte_of_string. split; [done|].
      by apply key_ordered_Get.
  - destruct (0 <? limit) eqn:Hpos.
    + apply Z.ltb_lt in Hpos. unfold in_int64 in Hlimit.
      rewrite scan_bounded by lia.
      rewrite Z.sub_0_r. simpl. by rewrite fmap_take.
    + apply Z.ltb_ge in Hpos. by rewrite scan_unbounded.
Qed.
End DiskList.

(** C4. [List] on the memory store, and on a consistent disk store whose
    engine reports no error and keeps its keys in order, returns the live
    entries whose key starts with the prefix (every live entry when the
    prefix is empty, see [HasPrefix_empty]), each once, in increasing key
    order, cut after [limit] entries when [limit] is positive and whole
    when it is zero or negative. *)
Theorem List_returns_the_ordered_prefix_matches {V : GoValue}
    (prefix : string) (limit : Z)
    (m : MemoryStore.t) (d : DiskStore.t) (w : bolt.World) :
  in_int64 limit ->
  consistent d w ->
  ordered d w ->
  (exists entries,
      MemoryStore.List prefix limit m = Ok entries /\
      is_listing (fun k => MemoryStore.container m !! k) prefix limit entries) /\
  (exists entries,
      (DiskStore.List prefix limit DiskStore.healthy d w).2 = Ok entries /\
      is_listing (stored d w) prefix limit entries).
Proof.
  intros Hlimit Hc Hordered. split.
  - by apply MemoryStore_List_visiting.
  - destruct (List_healthy d w Hc prefix limit) as (d' & w' & -> & _).
    eexists. split; [done|].
    unfold stored, ordered in *.
    destruct (store_bucket d w) as [b|]; simpl.
    + apply scan_is_listing; auto.
    + apply (scan_is_listing prefix limit []); [done|constructor].
Qed.

(** *** The calls keep the keys in order *)

Lemma bytes_Compare_Gt (a b : list byte) :
  bytes_Compare a b = Gt -> bytes_Compare b a = Lt.
Proof.
  unfold bytes_Compare. intros Hc.
  rewrite String.compare_antisym, Hc. done.
Qed.

Lemma bytes_Compare_trans (a b c : list byte) :
  bytes_Compare a b = Lt -> bytes_Compare b c = Lt -> bytes_Compare a c = Lt.
Proof. apply string_lt_trans. Qed.

Lemma elem_of_Put (b : bolt.Bucket) (key value : list byte)
    (kv : list byte * list byte) :
  kv ∈ bolt.Put b key value -> kv = (key, value) \/ kv ∈ b.
Proof.
  induction b as [|[k0 v0] b IH]; simpl.
  - intros ->%list_elem_of_singleton. by left.
  - destruct (bytes_Compare key k0).
    + intros [->|Hin]%elem_of_cons; [by left|]. right. by right.
    + intros [->|Hin]%elem_of_cons; [by left|by right].
    + intros [->|Hin]%elem_of_cons; [right; by left|].
      destruct (IH Hin) as [->|Hin']; [by left|]. right. by right.
Qed.

Lemma key_ordered_Put (b : bolt.Bucket) (key value : list byte) :
  key_ordered b -> key_ordered (bolt.Put b key value).
Proof.
  unfold key_ordered.
  induction 1 as [|[k0 v0] b Hb IH Hk0]; simpl.
  - repeat constructor.
  - destruct (bytes_Compare key k0) eqn:Hc.
    + apply bytes_Compare_Eq in Hc as ->. by constructor.
    + constructor; [by constructor|].
      constructor; [done|].
      eapply Forall_impl; [exact Hk0|]. intros kv Hkv. simpl in *.
      by eapply bytes_Compare_trans.
    + constructor; [done|].
      apply Forall_forall. intros kv Hin.
      destruct (elem_of_Put _ _ _ _ Hin) as [->|Hin'].
      * by apply bytes_Compare_Gt.
      * by eapply Forall_forall in Hk0.
Qed.

Lemma key_ordered_ForEach_Delete (b : bolt.Bucket) :
  key_ordered b -> key_ordered (bolt.ForEach_Delete b).
Proof.
  unfold bolt.ForEach_Delete. generalize b at 2 as visit.
  intros visit. revert b.
  induction visit as [|kv visit IH]; intros b Hb; simpl; [done|].
  apply IH. by apply key_ordered_filter.
Qed.

Lemma call_ordered {V : GoValue} (o : op) (s : DiskStore.t) (w : bolt.World) :
  consistent s w ->
  ordered s w ->
  ordered (call o DiskStore.healthy (s, w)).1.1
          (call o DiskStore.healthy (s, w)).1.2.
Proof.
  intros Hc Hordered.
  assert (key_ordered (default [] (store_bucket s w))) as Hb.
  { destruct (store_bucket s w) as [b|] eqn:Hb; simpl; [by apply Hordered|].
    constructor. }
  unfold ordered.
  destruct o as [key|key value|key|key| | |prefix limit|]; simpl.
  - destruct (Get_healthy s w Hc key) as (s' & w' & -> & _ & Hb').
    simpl. rewrite Hb'. by intros ? [= <-].
  - destruct value as [|data|text|x].
    + destruct (Set_refused s w Hc key VNil I) as (s' & w' & -> & _ & Hb').
      simpl. rewrite Hb'. by intros ? [= <-].
    + destruct (Set_healthy s w Hc key (VBytes data) data (or_introl eq_refl))
        as (s' & w' & -> & _ & Hb').
      simpl. rewrite Hb'. intros ? [= <-]. by apply key_ordered_Put.
    + destruct (Set_healthy s w Hc key (VString text)
                  (list_byte_of_string text)
                  (or_intror (ex_intro _ text (conj eq_refl eq_refl))))
        as (s' & w' & -> & _ & Hb').
      simpl. rewrite Hb'. intros ? [= <-]. by apply key_ordered_Put.
    + destruct (Set_refused s w Hc key (VOther x) I) as (s' & w' & -> & _ & Hb').
      simpl. rewrite Hb'. by intros ? [= <-].
  - destruct (Delete_healthy s w Hc key) as (s' & w' & -> & _ & Hb').
    simpl. rewrite Hb'. intros ? [= <-]. by apply key_ordered_filter.
  - destruct (Exists_healthy s w Hc key) as (s' & w' & -> & _ & Hb').
    simpl. rewrite Hb'. by intros ? [= <-].
  - destruct (Clear_healthy s w Hc) as (s' & w' & -> & _ & Hb').
    simpl. rewrite Hb'. intros ? [= <-]. by apply key_ordered_ForEach_Delete.
  - destruct (Size_healthy s w Hc) as (s' & w' & -> & _ & Hb').
    simpl. rewrite Hb'. by intros ? [= <-].
  - destruct (List_healthy s w Hc prefix limit) as (s' & w' & -> & _ & Hb').
    simpl. rewrite Hb'. by intros ? [= <-].
  - destruct (Close_healthy s w Hc) as (s' & w' & -> & _ & _ & Hb').
    simpl. rewrite Hb'. apply Hordered.
Qed.

(** The keys are in order in every state that a history of calls reaches
    from a consistent store whose keys were in order, a new store over an
    absent file among them. *)
Lemma run_ordered {V : GoValue} (history : list op)
    (s : DiskStore.t) (w : bolt.World) :
  consistent s w ->
  ordered s w ->
  let st := run (under DiskStore.healthy history) (s, w) in
  consistent st.1 st.2 /\ ordered st.1 st.2.
Proof.
  revert s w. induction history as [|o later IH]; intros s w Hc Ho; [done|].
  pose proof (call_ordered o s w Hc Ho) as Ho'.
  destruct (call_disk o s w Hc) as (s' & w' & err & Hcall & Hc' & _).
  unfold run in *. simpl. rewrite Hcall in *. simpl in *. by apply IH.
Qed.

Lemma new_store_ordered (p : string) (w : bolt.World) :
  bolt.files w !! p = None -> ordered (new_store p) w.
Proof.
  intros Hfresh b. unfold store_bucket. simpl. by rewrite Hfresh.
Qed.

Lemma List_returns_the_ordered_prefix_matches_witness :
  let V := Fragment.values in
  let w := bolt.mkWorld ∅ 0 in
  let history :=
    [OpSet "b" (VString "2"); OpSet "ab" (VBytes []); OpSet "a" (VString "1")] in
  let m := run (under tt history) MemoryStore.NewMemoryStore in
  let d := run (under DiskStore.healthy history) (new_store "kv.db", w) in
  in_int64 1 /\ consistent d.1 d.2 /\ ordered d.1 d.2 /\
  (exists entries,
      MemoryStore.List "a" 1 m = Ok entries /\
      is_listing (fun k => MemoryStore.container m !! k) "a" 1 entries) /\
  (exists entries,
      (DiskStore.List "a" 1 DiskStore.healthy d.1 d.2).2 = Ok entries /\
      is_listing (stored d.1 d.2) "a" 1 entries).
Proof.
  intros V w history m d.
  assert (in_int64 1) as Hlimit by (unfold in_int64; lia).
  destruct (run_ordered (V := V) history (new_store "kv.db") w
              (new_store_consistent "kv.db" w)
              (new_store_ordered "kv.db" w eq_refl))
    as [Hc Ho].
  split; [exact Hlimit|]. split; [exact Hc|]. split; [exact Ho|].
  exact (List_returns_the_ordered_prefix_matches (V := V) "a" 1 m d.1 d.2
           Hlimit Hc Ho).
Defined.

Example MemoryStore_List_example :
  let V := Fragment.values in
  let history :=
    [OpSet "b" (VString "2"); OpSet "ab" (VBytes []); OpSet "a" (VString "1")] in
  let m := run (under tt history) MemoryStore.NewMemoryStore in
  MemoryStore.List "a" 1 m = Ok [mkEntry "a" (VBytes (list_byte_of_string "1"))] /\
  MemoryStore.List "" 0 m =
    Ok [mkEntry "a" (VBytes (list_byte_of_string "1"));
        mkEntry "ab" (VBytes []);
        mkEntry "b" (VBytes (list_byte_of_string "2"))].
Proof. vm_compute. done. Qed.

(** ** The scenario of the specification, on both backends

    [Set("a","1")], [Set("b","2")], then [List("", 0)] and [List("a", 0)];
    [Delete("a")], then [Exists("a")] and [Size()]. *)

Example scenario_on_both_backends :
  let V := Fragment.values in
  let a1 := mkEntry "a" (VBytes (list_byte_of_string "1")) in
  let b2 := mkEntry "b" (VBytes (list_byte_of_string "2")) in
  let sets := [OpSet "a" (VString "1"); OpSet "b" (VString "2")] in
  let m := run (under tt sets) MemoryStore.NewMemoryStore in
  let d :=
    run (under DiskStore.healthy sets)
      (DiskStore.NewDiskStore, bolt.mkWorld ∅ 0) in
  let m' := run (under tt [OpDelete "a"]) m in
  let d' := run (under DiskStore.healthy [OpDelete "a"]) d in
  (MemoryStore.List "" 0 m = Ok [a1; b2] /\
   MemoryStore.List "a" 0 m = Ok [a1] /\
   MemoryStore.Exists "a" m' = Ok false /\
   MemoryStore.Size m' = Ok 1) /\
  ((DiskStore.List "" 0 DiskStore.healthy d.1 d.2).2 = Ok [a1; b2] /\
   (DiskStore.List "a" 0 DiskStore.healthy d.1 d.2).2 = Ok [a1] /\
   (DiskStore.Exists "a" DiskStore.healthy d'.1 d'.2).2 = Ok false /\
   (DiskStore.Size DiskStore.healthy d'.1 d'.2).2 = Ok 1).
Proof. vm_compute. by split_and!. Qed.

(** * Further properties *)

(** ** The engine: how many pairs a bucket holds *)

Lemma fold_Delete_all (l acc : bolt.Bucket) :
  (forall kv, kv ∈ acc -> kv.1 ∈ l.*1) ->
  fold_left (fun acc kv => bolt.Delete acc kv.1) l acc = [].
Proof.
  revert acc. induction l as [|x l IH]; intros acc Hacc; simpl.
  - destruct acc as [|kv acc]; [done|].
    specialize (Hacc kv (list_elem_of_here _ _)). by apply elem_of_nil in Hacc.
  - apply IH. intros kv [Hne Hin]%list_elem_of_filter.
    apply Hacc in Hin. simpl in Hin. apply elem_of_cons in Hin as [?|?]; done.
Qed.

Lemma ForEach_Delete_nil (b : bolt.Bucket) : bolt.ForEach_Delete b = [].
Proof.
  apply fold_Delete_all. intros kv Hin. apply list_elem_of_fmap. by exists kv.
Qed.

Lemma Get_above (b : bolt.Bucket) (k : list byte) :
  Forall (fun kv => bytes_Compare k kv.1 = Lt) b -> bolt.Get b k = None.
Proof.
  induction 1 as [|[k0 v0] b Hk0 _ IH]; simpl; [done|].
  rewrite decide_False; [done|].
  intros ->. simpl in Hk0. by rewrite (proj2 (bytes_Compare_Eq k k)) in Hk0.
Qed.


Lemma Delete_absent (b : bolt.Bucket) (key : list byte) :
  bolt.Get b key = None -> bolt.Delete b key = b.
Proof.
  unfold bolt.Delete. induction b as [|[k0 v0] b IH]; simpl; [done|].
  case_decide; [done|]. intros Hget.
  rewrite filter_cons, decide_True by done. by rewrite IH.
Qed.

Lemma length_Delete (b : bolt.Bucket) (key : list byte) :
  key_ordered b ->
  length (bolt.Delete b key) =
  match bolt.Get b key with
  | Some _ => pred (length b)
  | None => length b
  end.
Proof.
  unfold key_ordered. induction 1 as [|[k0 v0] b Hb IH Hk0]; simpl; [done|].
  unfold bolt.Delete in *. rewrite filter_cons. simpl.
  destruct (decide (k0 = key)) as [->|Hne].
  - rewrite decide_False by (by intros ?).
    fold (bolt.Delete b key). rewrite Delete_absent; [done|].
    by apply Get_above.
  - rewrite decide_True by done. simpl. rewrite IH.
    destruct (bolt.Get b key) as [v|] eqn:Hget; [|done].
    apply Get_elem_of in Hget. destruct b; [by apply elem_of_nil in Hget|done].
Qed.

Lemma filter_matches_all (b : bolt.Bucket) : filter (matches "") b = b.
Proof.
  induction b as [|kv b IH]; [done|].
  rewrite filter_cons, decide_True; [by rewrite IH|].
  apply HasPrefix_empty.
Qed.

(** ** Clear, Size and the number of entries *)

Section Sizes.
Context {V : GoValue}.

Lemma filter_prefix_empty (keys : list string) :
  filter (fun k => HasPrefix k "" = true) keys = keys.
Proof.
  induction keys as [|k keys IH]; [done|].
  rewrite filter_cons, decide_True; [by rewrite IH|]. apply HasPrefix_empty.
Qed.

Lemma MemoryStore_List_whole (limit : Z) (m : MemoryStore.t) :
  limit <= 0 ->
  exists entries,
    MemoryStore.List "" limit m = Ok entries /\
    length entries = size (MemoryStore.container m).
Proof.
  intros Hlimit. unfold MemoryStore.List, MemoryStore.List_visiting.
  eexists. split; [done|].
  rewrite collect_unbounded by done. simpl.
  rewrite length_fmap. unfold sort_Strings.
  rewrite merge_sort_Permutation, matching_keys_filter.
  rewrite filter_prefix_empty.
  by rewrite length_fmap, length_map_to_list.
Qed.

Lemma scan_whole (limit : Z) (b : bolt.Bucket) :
  limit <= 0 -> length (DiskStore.scan "" limit b 0 []) = length b.
Proof.
  intros Hlimit. rewrite scan_unbounded by done. simpl.
  by rewrite length_fmap, filter_matches_all.
Qed.
End Sizes.

Lemma ordered_default (d : DiskStore.t) (w : bolt.World) :
  ordered d w -> key_ordered (default [] (store_bucket d w)).
Proof.
  intros Ho. destruct (store_bucket d w) as [b|] eqn:Hb; simpl.
  - by apply Ho.
  - constructor.
Qed.


(** X1. After [Clear], on the memory store and on a consistent disk store
    whose engine reports no error, [Clear] has returned no error, [Size]
    is 0, [Exists] is false and [Get] fails with "key not found" for every
    key, and [List] returns no entry for every prefix and limit. *)
Theorem Clear_empties_the_store {V : GoValue}
    (m : MemoryStore.t) (d : DiskStore.t) (w : bolt.World)
    (key prefix : string) (limit : Z) :
  consistent d w ->
  let m' := (MemoryStore.Clear m).1 in
  let cleared := DiskStore.Clear DiskStore.healthy d w in
  let d' := cleared.1.1 in
  let w' := cleared.1.2 in
  ((MemoryStore.Clear m).2 = None /\
   MemoryStore.Size m' = Ok 0 /\
   MemoryStore.Exists key m' = Ok false /\
   MemoryStore.Get key m' = Err (KeyNotFound key) /\
   MemoryStore.List prefix limit m' = Ok []) /\
  (cleared.2 = None /\
   (DiskStore.Size DiskStore.healthy d' w').2 = Ok 0 /\
   (DiskStore.Exists key DiskStore.healthy d' w').2 = Ok false /\
   (DiskStore.Get key DiskStore.healthy d' w').2 = Err (KeyNotFound key) /\
   (DiskStore.List prefix limit DiskStore.healthy d' w').2 = Ok []).
Proof.
  intros Hc. split.
  - by split_and!.
  - destruct (Clear_healthy d w Hc) as (d' & w' & Hclear & Hb & Hbucket).
    rewrite Hclear. cbn [fst snd].
    rewrite ForEach_Delete_nil in Hbucket.
    destruct Hb as (Hc' & _).
    assert (forall k, stored d' w' k = None) as Hnone.
    { intros k. by rewrite (stored_of_bucket _ _ _ _ Hbucket). }
    split_and!; [done| | | |].
    + destruct (Size_healthy d' w' Hc') as (? & ? & -> & _).
      by rewrite Hbucket.
    + destruct (Exists_healthy d' w' Hc' key) as (? & ? & -> & _).
      by rewrite Hnone.
    + destruct (Get_healthy d' w' Hc' key) as (? & ? & -> & _).
      by rewrite Hnone.
    + destruct (List_healthy d' w' Hc' prefix limit) as (? & ? & -> & _).
      by rewrite Hbucket.
Qed.

Lemma Clear_empties_the_store_witness :
  let V := Fragment.values in
  let history := [OpSet "a" (VString "1"); OpSet "b" (VBytes [])] in
  let m := run (under tt history) MemoryStore.NewMemoryStore in
  let d :=
    run (under DiskStore.healthy history)
      (new_store "kv.db", bolt.mkWorld ∅ 0) in
  let cleared := DiskStore.Clear DiskStore.healthy d.1 d.2 in
  consistent d.1 d.2 /\
  (MemoryStore.Size (MemoryStore.Clear m).1 = Ok 0 /\
   MemoryStore.Get "a" (MemoryStore.Clear m).1 = Err (KeyNotFound "a")) /\
  (cleared.2 = None /\
   (DiskStore.Size DiskStore.healthy cleared.1.1 cleared.1.2).2 = Ok 0 /\
   (DiskStore.Get "a" DiskStore.healthy cleared.1.1 cleared.1.2).2 =
     Err (KeyNotFound "a")).
Proof.
  intros V history m d cleared.
  destruct (run_disk (V := V) history (new_store "kv.db") (bolt.mkWorld ∅ 0)
              (new_store_consistent _ _)) as (Hc & _).
  split; [exact Hc|].
  destruct (Clear_empties_the_store (V := V) m d.1 d.2 "a" "" 0 Hc)
    as [(_ & Hsize & _ & Hget & _) (Herr & Hsize' & _ & Hget' & _)].
  by split_and!.
Defined.

(** X2. [Size] and [List] count the same keys: with the empty prefix and
    a limit that is zero or negative, [List] returns as many entries as
    [Size] reports, on the memory store and on a consistent disk store
    whose engine reports no error. The number of keys is one a Go [int]
    holds. *)
Theorem Size_counts_the_entries_of_List {V : GoValue} (limit : Z)
    (m : MemoryStore.t) (d : DiskStore.t) (w : bolt.World) :
  limit <= 0 ->
  consistent d w ->
  Z.of_nat (size (MemoryStore.container m)) < 2 ^ 63 ->
  Z.of_nat (length (default [] (store_bucket d w))) < 2 ^ 63 ->
  (exists entries,
      MemoryStore.List "" limit m = Ok entries /\
      MemoryStore.Size m = Ok (Z.of_nat (length entries))) /\
  (exists entries,
      (DiskStore.List "" limit DiskStore.healthy d w).2 = Ok entries /\
      (DiskStore.Size DiskStore.healthy d w).2 = Ok (Z.of_nat (length entries))).
Proof.
  intros Hlimit Hc Hm Hd. split.
  - destruct (MemoryStore_List_whole limit m Hlimit) as (entries & -> & Hlen).
    exists entries. split; [done|]. unfold MemoryStore.Size.
    rewrite Hlen, wrap64_id; [done|]. unfold in_int64. lia.
  - destruct (List_healthy d w Hc "" limit) as (? & ? & -> & _).
    destruct (Size_healthy d w Hc) as (? & ? & -> & _).
    eexists. split; [done|]. cbn [snd].
    rewrite scan_whole by done.
    rewrite wrap64_id; [done|]. unfold in_int64. lia.
Qed.

Lemma Size_counts_the_entries_of_List_witness :
  let V := Fragment.values in
  let history := [OpSet "a" (VString "1"); OpSet "b" (VBytes [])] in
  let m := run (under tt history) MemoryStore.NewMemoryStore in
  let d :=
    run (under DiskStore.healthy history)
      (new_store "kv.db", bolt.mkWorld ∅ 0) in
  0 <= 0 /\ consistent d.1 d.2 /\
  Z.of_nat (size (MemoryStore.container m)) < 2 ^ 63 /\
  Z.of_nat (length (default [] (store_bucket d.1 d.2))) < 2 ^ 63 /\
  (exists entries,
      MemoryStore.List "" 0 m = Ok entries /\
      MemoryStore.Size m = Ok (Z.of_nat (length entries))) /\
  (exists entries,
      (DiskStore.List "" 0 DiskStore.healthy d.1 d.2).2 = Ok entries /\
      (DiskStore.Size DiskStore.healthy d.1 d.2).2 =
        Ok (Z.of_nat (length entries))).
Proof.
  intros V history m d.
  destruct (run_disk (V := V) history (new_store "kv.db") (bolt.mkWorld ∅ 0)
              (new_store_consistent _ _)) as (Hc & _).
  assert (Z.of_nat (size (MemoryStore.container m)) < 2 ^ 63) as Hm
    by (by vm_compute).
  assert (Z.of_nat (length (default [] (store_bucket d.1 d.2))) < 2 ^ 63) as Hd
    by (by vm_compute).
  split; [lia|]. split; [exact Hc|]. split; [exact Hm|]. split; [exact Hd|].
  exact (Size_counts_the_entries_of_List (V := V) 0 m d.1 d.2
           (Z.le_refl 0) Hc Hm Hd).
Defined.



(** X4. [Delete] returns no error whether or not the key is there, and
    [Size] afterwards is one less when [Exists] answered true for the key
    and unchanged when it answered false. Memory store, and a consistent
    disk store whose engine reports no error and keeps its keys in
    order. *)
Theorem Delete_removes_one_key_or_none {V : GoValue} (key : string)
    (m : MemoryStore.t) (d : DiskStore.t) (w : bolt.World) :
  consistent d w ->
  ordered d w ->
  Z.of_nat (size (MemoryStore.container m)) < 2 ^ 63 ->
  Z.of_nat (length (default [] (store_bucket d w))) < 2 ^ 63 ->
  (exists n held,
      MemoryStore.Size m = Ok n /\
      MemoryStore.Exists key m = Ok held /\
      (MemoryStore.Delete key m).2 = None /\
      MemoryStore.Size (MemoryStore.Delete key m).1 =
        Ok (if held then n - 1 else n)) /\
  (exists n held,
      (DiskStore.Size DiskStore.healthy d w).2 = Ok n /\
      (DiskStore.Exists key DiskStore.healthy d w).2 = Ok held /\
      let after := DiskStore.Delete key DiskStore.healthy d w in
      after.2 = None /\
      (DiskStore.Size DiskStore.healthy after.1.1 after.1.2).2 =
        Ok (if held then n - 1 else n)).
Proof.
  intros Hc Ho Hm Hd. split.
  - exists (Z.of_nat (size (MemoryStore.container m))),
      (bool_decide (is_Some (MemoryStore.container m !! key))).
    unfold MemoryStore.Size, MemoryStore.Exists, MemoryStore.Delete.
    rewrite wrap64_id by (unfold in_int64; lia).
    cbn [fst snd MemoryStore.container].
    rewrite map_size_delete.
    destruct (MemoryStore.container m !! key) as [v|] eqn:Hkey;
      (split_and!; [done|done|done|]).
    + assert (size (MemoryStore.container m) <> 0%nat) as Hne.
      { intros Hz. apply map_size_empty_iff in Hz. by rewrite Hz in Hkey. }
      cbn [bool_decide]. rewrite bool_decide_eq_true_2 by eauto.
      rewrite wrap64_id by (unfold in_int64; lia). f_equal. lia.
    + rewrite bool_decide_eq_false_2 by (by intros [? ?]).
      by rewrite wrap64_id by (unfold in_int64; simpl; lia).
  - set (b := default [] (store_bucket d w)) in *.
    exists (Z.of_nat (length b)),
      (match stored d w key with Some _ => true | None => false end).
    destruct (Size_healthy d w Hc) as (? & ? & -> & _).
    destruct (Exists_healthy d w Hc key) as (? & ? & -> & _).
    destruct (Delete_healthy d w Hc key)
      as (d' & w' & -> & (Hc' & _) & Hbucket).
    cbv zeta. cbn [fst snd].
    destruct (Size_healthy d' w' Hc') as (? & ? & -> & _).
    cbn [fst snd]. rewrite Hbucket. cbn [default from_option id]. fold b.
    pose proof (stored_default d w key) as Hget. fold b in Hget.
    rewrite length_Delete, Hget by (by apply ordered_default).
    rewrite wrap64_id by (unfold in_int64; lia).
    split_and!; [done|done|done|].
    destruct (stored d w key) as [v|] eqn:Hkey;
      (rewrite wrap64_id by (unfold in_int64; lia)); [|done].
    assert (length b <> 0%nat) as Hne.
    { intros Hz. apply nil_length_inv in Hz.
      unfold stored in Hkey. fold b in Hz.
      destruct (store_bucket d w); simpl in *; by simplify_eq. }
    f_equal. lia.
Qed.

Lemma Delete_removes_one_key_or_none_witness :
  let V := Fragment.values in
  let history := [OpSet "a" (VString "1"); OpSet "b" (VBytes [])] in
  let m := run (under tt history) MemoryStore.NewMemoryStore in
  let d :=
    run (under DiskStore.healthy history)
      (new_store "kv.db", bolt.mkWorld ∅ 0) in
  consistent d.1 d.2 /\ ordered d.1 d.2 /\
  Z.of_nat (size (MemoryStore.container m)) < 2 ^ 63 /\
  Z.of_nat (length (default [] (store_bucket d.1 d.2))) < 2 ^ 63 /\
  (exists n held,
      MemoryStore.Size m = Ok n /\
      MemoryStore.Exists "a" m = Ok held /\
      (MemoryStore.Delete "a" m).2 = None /\
      MemoryStore.Size (MemoryStore.Delete "a" m).1 =
        Ok (if held then n - 1 else n)) /\
  (exists n held,
      (DiskStore.Size DiskStore.healthy d.1 d.2).2 = Ok n /\
      (DiskStore.Exists "a" DiskStore.healthy d.1 d.2).2 = Ok held /\
      let after := DiskStore.Delete "a" DiskStore.healthy d.1 d.2 in
      after.2 = None /\
      (DiskStore.Size DiskStore.healthy after.1.1 after.1.2).2 =
        Ok (if held then n - 1 else n)).
Proof.
  intros V history m d.
  assert (bolt.files (bolt.mkWorld ∅ 0) !! "kv.db" = None) as Hfresh
    by reflexivity.
  destruct (run_ordered (V := V) history (new_store "kv.db")
              (bolt.mkWorld ∅ 0) (new_store_consistent _ _)
              (new_store_ordered "kv.db" _ Hfresh))
    as [Hc Ho].
  assert (Z.of_nat (size (MemoryStore.container m)) < 2 ^ 63) as Hm
    by (by vm_compute).
  assert (Z.of_nat (length (default [] (store_bucket d.1 d.2))) < 2 ^ 63)
    as Hd by (by vm_compute).
  split; [exact Hc|]. split; [exact Ho|].
  split; [exact Hm|]. split; [exact Hd|].
  exact (Delete_removes_one_key_or_none (V := V) "a" m d.1 d.2 Hc Ho Hm Hd).
Defined.

(** ** [List] is determined by what the store holds *)

Lemma sort_Strings_Permutation (l1 l2 : list string) :
  l1 ≡ₚ l2 -> sort_Strings l1 = sort_Strings l2.
Proof.
  intros Hperm. unfold sort_Strings.
  apply (StronglySorted_unique String.le).
  - apply StronglySorted_merge_sort; apply _.
  - apply StronglySorted_merge_sort; apply _.
  - by rewrite !merge_sort_Permutation.
Qed.

Section Listings.
Context {V : GoValue}.


End Listings.

(** X5. [MemoryStore.List] returns the same entries whatever the order in
    which the [range] statement hands out the keys of the map: the sort
    makes the result a function of the container alone. *)
Theorem MemoryStore_List_ignores_iteration_order {V : GoValue}
    (visit : list string) (prefix : string) (limit : Z) (s : MemoryStore.t) :
  visit ≡ₚ (map_to_list (MemoryStore.container s)).*1 ->
  MemoryStore.List_visiting visit prefix limit s =
  MemoryStore.List prefix limit s.
Proof.
  intros Hvisit. unfold MemoryStore.List, MemoryStore.List_visiting.
  rewrite !matching_keys_filter.
  by rewrite (sort_Strings_Permutation _ _
                (filter_Permutation _ _ _ Hvisit)).
Qed.

Lemma MemoryStore_List_ignores_iteration_order_witness :
  let V := Fragment.values in
  let history :=
    [OpSet "b" (VString "2"); OpSet "ab" (VBytes []); OpSet "a" (VString "1")] in
  let m := run (under tt history) MemoryStore.NewMemoryStore in
  ["b"; "a"; "ab"] ≡ₚ (map_to_list (MemoryStore.container m)).*1 /\
  MemoryStore.List_visiting ["b"; "a"; "ab"] "a" 1 m = MemoryStore.List "a" 1 m.
Proof.
  intros V history m.
  assert (["b"; "a"; "ab"] ≡ₚ (map_to_list (MemoryStore.container m)).*1)
    as Hvisit.
  { apply (bool_decide_unpack _). by vm_compute. }
  split; [exact Hvisit|].
  exact (MemoryStore_List_ignores_iteration_order (V := V) _ "a" 1 m Hvisit).
Defined.



(** ** Calls whose [open] or whose transaction fails *)

Ltac disk_method :=
  cbn [call Store.Get Store.Set_ Store.Delete Store.Exists Store.Clear
       Store.Size Store.List DiskStore_Store fst snd];
  unfold DiskStore.Get, DiskStore.Set_, DiskStore.Delete, DiskStore.Exists,
    DiskStore.Clear, DiskStore.Size, DiskStore.List.

(** X7. A method of a closed disk store whose [open] fails returns that
    error wrapped in "failed to open disk store" and leaves the store as
    it was, its count included. When [bolt.Open] itself failed the file
    system is as it was too; when the creation of the bucket failed, the
    file exists and the handle that [bolt.Open] returned stays open. *)
Theorem failed_open_fails_the_call {V : GoValue} (o : op)
    (env : DiskStore.Env) (s : DiskStore.t) (w : bolt.World) (msg : string) :
  o <> OpClose ->
  DiskStore.opened s = false ->
  (DiskStore.Open_fault env = Some msg ->
   call o env (s, w) =
   (s, w, Some (Wrapped "failed to open disk store" (External msg)))) /\
  (DiskStore.Open_fault env = None ->
   DiskStore.init_fault env = Some msg ->
   call o env (s, w) =
   (s, world_after_Open (DiskStore.path s) w,
    Some (Wrapped "failed to open disk store" (External msg)))).
Proof.
  intros Ho Hclosed. split.
  - intros HOpen.
    assert (DiskStore.open env s w = (s, w, Some (External msg))) as Hopen.
    { pose proof (open_cases env s w) as Hcase.
      inversion Hcase; congruence. }
    destruct o; [..|done]; disk_method; by rewrite Hopen.
  - intros HOpen Hinit.
    assert (DiskStore.open env s w =
            (s, world_after_Open (DiskStore.path s) w, Some (External msg)))
      as Hopen.
    { pose proof (open_cases env s w) as Hcase.
      inversion Hcase; congruence. }
    destruct o; [..|done]; disk_method; by rewrite Hopen.
Qed.

Lemma failed_open_fails_the_call_witness :
  let V := Fragment.values in
  let env := DiskStore.mkEnv (Some "permission denied") None None None in
  let env' := DiskStore.mkEnv None (Some "disk full") None None in
  let w := bolt.mkWorld ∅ 0 in
  OpSet "a" (VString "1") <> OpClose /\
  DiskStore.opened (new_store "kv.db") = false /\
  (DiskStore.Open_fault env = Some "permission denied" /\
   call (OpSet "a" (VString "1")) env (new_store "kv.db", w) =
   (new_store "kv.db", w,
    Some (Wrapped "failed to open disk store" (External "permission denied")))) /\
  (DiskStore.Open_fault env' = None /\
   DiskStore.init_fault env' = Some "disk full" /\
   call (OpSet "a" (VString "1")) env' (new_store "kv.db", w) =
   (new_store "kv.db", world_after_Open "kv.db" w,
    Some (Wrapped "failed to open disk store" (External "disk full")))).
Proof.
  intros V env env' w.
  assert (OpSet "a" (VString "1") <> OpClose) as Ho by done.
  split; [exact Ho|]. split; [reflexivity|]. split.
  - split; [reflexivity|].
    exact (proj1 (failed_open_fails_the_call (V := V) _ env
                    (new_store "kv.db") w _ Ho eq_refl) eq_refl).
  - split; [reflexivity|]. split; [reflexivity|].
    exact (proj2 (failed_open_fails_the_call (V := V) _ env'
                    (new_store "kv.db") w _ Ho eq_refl) eq_refl eq_refl).
Defined.

(** X8. Every method of the disk store but [Close] whose call of [open]
    succeeds leaves the store marked open with one more reference,
    whatever the method itself returns: a [Get] of a missing key, a [Set]
    of a refused value and a failed transaction take a reference as a
    successful call does. *)
Theorem a_call_takes_a_reference_whatever_it_returns {V : GoValue} (o : op)
    (env : DiskStore.Env) (s : DiskStore.t) (w : bolt.World) :
  o <> OpClose ->
  (DiskStore.open env s w).2 = None ->
  let after := call o env (s, w) in
  DiskStore.refCount after.1.1 = wrap64 (DiskStore.refCount s + 1) /\
  DiskStore.opened after.1.1 = true.
Proof.
  intros Ho Hopen after. unfold after.
  destruct (call_is_open o env s w Ho) as [-> _].
  destruct (DiskStore.open env s w) as [[s' w'] err] eqn:Hopen'.
  simpl in Hopen. subst err. by apply (open_success_counts env s s' w w').
Qed.

Lemma a_call_takes_a_reference_whatever_it_returns_witness :
  let V := Fragment.values in
  let env := DiskStore.mkEnv None None (Some "read: input/output error") None in
  let w := bolt.mkWorld ∅ 0 in
  let after := call (OpGet "missing") env (new_store "kv.db", w) in
  OpGet "missing" <> OpClose /\
  (DiskStore.open env (new_store "kv.db") w).2 = None /\
  is_Some after.2 /\
  DiskStore.refCount after.1.1 = wrap64 (DiskStore.refCount (new_store "kv.db") + 1) /\
  DiskStore.opened after.1.1 = true.
Proof.
  intros V env w after.
  assert (OpGet "missing" <> OpClose) as Ho by done.
  split; [exact Ho|]. split; [reflexivity|]. split; [by eexists|].
  exact (a_call_takes_a_reference_whatever_it_returns (V := V) _ env
           (new_store "kv.db") w Ho eq_refl).
Defined.

(** X9. When the engine fails the transaction of a method of the disk
    store, the method returns an error and the store and the file system
    are as the method's call of [open] left them: nothing of the call
    itself is written. *)
Theorem failed_transaction_writes_nothing {V : GoValue} (o : op)
    (env : DiskStore.Env) (s : DiskStore.t) (w : bolt.World) (msg : string) :
  o <> OpClose ->
  DiskStore.tx_fault env = Some msg ->
  let after := call o env (s, w) in
  after.1 = (DiskStore.open env s w).1 /\ is_Some after.2.
Proof.
  intros Ho Htx after. unfold after.
  destruct o as [key|key value|key|key| | |prefix limit|]; [..|done];
    disk_method; unfold bolt.View, bolt.Update; rewrite Htx;
    destruct (DiskStore.open env s w) as [[s1 w1] [err|]];
    cbn [fst snd]; try (by eauto);
    try (destruct (negb _); by eauto).
  destruct value; try (by eauto); destruct (negb _); by eauto.
Qed.

Lemma failed_transaction_writes_nothing_witness :
  let V := Fragment.values in
  let env := DiskStore.mkEnv None None (Some "write: no space left") None in
  let w := bolt.mkWorld ∅ 0 in
  let after := call (OpSet "a" (VString "1")) env (new_store "kv.db", w) in
  OpSet "a" (VString "1") <> OpClose /\
  DiskStore.tx_fault env = Some "write: no space left" /\
  after.1 = (DiskStore.open env (new_store "kv.db") w).1 /\ is_Some after.2.
Proof.
  intros V env w after.
  assert (OpSet "a" (VString "1") <> OpClose) as Ho by done.
  split; [exact Ho|]. split; [reflexivity|].
  exact (failed_transaction_writes_nothing (V := V) _ env
           (new_store "kv.db") w _ Ho eq_refl).
Defined.

(** ** One [Close] for every call *)

Section Counting.
Context {V : GoValue}.

Lemma run_app {S E : Type} {backend : Store.t S E}
    (calls1 calls2 : list (op * E)) (s : S) :
  run (calls1 ++ calls2) s = run calls2 (run calls1 s).
Proof. unfold run. by rewrite fold_left_app. Qed.

Lemma under_app {E : Type} (e : E) (calls1 calls2 : list op) :
  under e (calls1 ++ calls2) = under e calls1 ++ under e calls2.
Proof. apply map_app. Qed.

Lemma calls_count (calls : list op) (s : DiskStore.t) (w : bolt.World) :
  Forall (fun o => o <> OpClose) calls ->
  consistent s w ->
  0 <= DiskStore.refCount s ->
  DiskStore.refCount s + Z.of_nat (length calls) < 2 ^ 63 ->
  let st := run (under DiskStore.healthy calls) (s, w) in
  consistent st.1 st.2 /\
  DiskStore.refCount st.1 = DiskStore.refCount s + Z.of_nat (length calls) /\
  DiskStore.opened st.1 =
    match calls with [] => DiskStore.opened s | _ => true end /\
  bolt.open_handles st.2 =
    (bolt.open_handles w +
     match calls with
     | [] => 0
     | _ => if DiskStore.opened s then 0 else 1
     end)%nat.
Proof.
  intros Hcalls. revert s w.
  induction Hcalls as [|o calls Ho Hcalls IH]; intros s w Hc Hpos Hlen.
  { simpl. split_and!; [done|lia|done|lia]. }
  simpl length in Hlen.
  destruct (call_disk o s w Hc) as (s' & w' & err & Hcall & Hc' & _ & _ & Hb).
  destruct (Hb Ho) as (_ & Hopened & _ & Hcount & Hh).
  rewrite wrap64_id in Hcount by (unfold in_int64; lia).
  unfold run in *. simpl. rewrite Hcall. cbn [fst].
  destruct (IH s' w' Hc') as (Hc'' & Hcount' & Hopened' & Hh'); [lia|lia|].
  split_and!; [done|lia| |].
  - rewrite Hopened'. by destruct calls.
  - rewrite Hh', Hh, Hopened.
    destruct calls; destruct (DiskStore.opened s); lia.
Qed.

Lemma Closes_count (closes : nat) (s : DiskStore.t) (w : bolt.World) :
  consistent s w ->
  DiskStore.opened s = true ->
  Z.of_nat closes <= DiskStore.refCount s < 2 ^ 63 ->
  0 < DiskStore.refCount s ->
  let st := run (under DiskStore.healthy (replicate closes OpClose)) (s, w) in
  consistent st.1 st.2 /\
  DiskStore.refCount st.1 = DiskStore.refCount s - Z.of_nat closes /\
  DiskStore.opened st.1 = bool_decide (Z.of_nat closes < DiskStore.refCount s) /\
  bolt.open_handles st.2 =
    (if bool_decide (Z.of_nat closes < DiskStore.refCount s)
     then bolt.open_handles w else Nat.pred (bolt.open_handles w)).
Proof.
  revert s w. induction closes as [|closes IH]; intros s w Hc Hopened Hle Hpos.
  { simpl. rewrite bool_decide_eq_true_2 by lia. split_and!; [done|lia|done|done]. }
  unfold run in *. simpl.
  destruct (Close_healthy s w Hc) as (s' & w' & Hclose & Hc' & _).
  rewrite Hclose. cbn [fst].
  destruct (decide (1 < DiskStore.refCount s)) as [Hmore|Hlast].
  - rewrite Close_keeps_open in Hclose
      by (rewrite ?wrap64_id by (unfold in_int64; lia); done || lia).
    simplify_eq.
    rewrite wrap64_id in * by (unfold in_int64; lia).
    destruct (IH _ w' Hc' eq_refl) as (Hc'' & Hcount & Hflag & Hh);
      cbn [DiskStore.refCount]; [lia|lia|].
    cbn [DiskStore.refCount] in *. rewrite Hcount, Hflag, Hh.
    rewrite (bool_decide_ext (Z.of_nat closes < DiskStore.refCount s - 1)
               (Z.of_nat (S closes) < DiskStore.refCount s)) by lia.
    split_and!; [done|lia|done|done].
  - assert (DiskStore.refCount s = 1) as Hone by lia.
    assert (closes = 0%nat) as -> by lia.
    destruct Hc as [Hflag _].
    rewrite Close_last in Hclose
      by (rewrite ?Hone; try done; by rewrite <- Hflag).
    simplify_eq. simpl. rewrite Hone.
    rewrite bool_decide_eq_false_2 by lia. done.
Qed.
End Counting.

(** X10. On a new disk store whose engine reports no error, n calls of
    methods other than [Close] followed by j <= n calls of [Close] leave
    the count at n - j; the store is marked open, its handle is open and
    the process holds one handle more than before exactly when j < n. The
    handle closes at the n-th [Close] and not before. *)
Theorem Close_is_owed_once_per_call {V : GoValue}
    (calls : list op) (closes : nat) (p : string) (w : bolt.World) :
  Forall (fun o => o <> OpClose) calls ->
  Z.of_nat (length calls) < 2 ^ 63 ->
  (closes <= length calls)%nat ->
  let st :=
    run (under DiskStore.healthy (calls ++ replicate closes OpClose))
      (new_store p, w) in
  DiskStore.refCount st.1 = Z.of_nat (length calls) - Z.of_nat closes /\
  DiskStore.opened st.1 = bool_decide (closes < length calls)%nat /\
  bolt.db_opened (DiskStore.handle st.1) =
    bool_decide (closes < length calls)%nat /\
  bolt.open_handles st.2 =
    (bolt.open_handles w +
     if bool_decide (closes < length calls)%nat then 1 else 0)%nat.
Proof.
  intros Hcalls Hlen Hcloses st.
  unfold st. rewrite under_app, run_app.
  destruct (calls_count calls (new_store p) w Hcalls
              (new_store_consistent p w)) as (Hc & Hcount & Hopened & Hh);
    [done|simpl; lia|].
  destruct (run (under DiskStore.healthy calls) (new_store p, w)) as [s1 w1].
  cbn [fst snd] in *. simpl in Hcount, Hopened, Hh.
  destruct calls as [|o calls].
  { assert (closes = 0%nat) as -> by (simpl in Hcloses; lia).
    destruct Hc as [Hflag _].
    simpl. rewrite <- Hflag, Hcount, Hopened, Hh. by split_and!. }
  destruct (Closes_count closes s1 w1 Hc Hopened)
    as ([Hflag _] & Hcount' & Hopened' & Hh').
  { rewrite Hcount. simpl length in *. lia. }
  { rewrite Hcount. simpl length. lia. }
  rewrite <- Hflag, Hcount', Hopened', Hh', Hcount, Hh.
  rewrite (bool_decide_ext (Z.of_nat closes < Z.of_nat (length (o :: calls)))
             (closes < length (o :: calls))%nat) by lia.
  split_and!; [done..|]. repeat case_bool_decide; lia.
Qed.

Lemma Close_is_owed_once_per_call_witness :
  let V := Fragment.values in
  let calls := [OpSet "a" (VString "1"); OpGet "b"; OpSize] in
  let w := bolt.mkWorld ∅ 0 in
  let st :=
    run (under DiskStore.healthy (calls ++ replicate 2 OpClose))
      (new_store "kv.db", w) in
  Forall (fun o => o <> OpClose) calls /\
  Z.of_nat (length calls) < 2 ^ 63 /\
  (2 <= length calls)%nat /\
  DiskStore.refCount st.1 = Z.of_nat (length calls) - Z.of_nat 2 /\
  DiskStore.opened st.1 = bool_decide (2 < length calls)%nat /\
  bolt.db_opened (DiskStore.handle st.1) = bool_decide (2 < length calls)%nat /\
  bolt.open_handles st.2 =
    (bolt.open_handles w + if bool_decide (2 < length calls)%nat then 1 else 0)%nat.
Proof.
  intros V calls w st.
  assert (Forall (fun o => o <> OpClose) calls) as Hcalls
    by (repeat constructor; done).
  assert (Z.of_nat (length calls) < 2 ^ 63) as Hlen by (by vm_compute).
  assert (2 <= length calls)%nat as Hcloses by (simpl; lia).
  split; [exact Hcalls|]. split; [exact Hlen|]. split; [exact Hcloses|].
  exact (Close_is_owed_once_per_call (V := V) calls 2 "kv.db" w
           Hcalls Hlen Hcloses).
Defined.

(** ** What is on disk, and a handle that is closed *)



(** X12. While a disk store is marked open and its handle is closed (the
    state a failed [handle.Close] leaves), every method but [Close] takes
    the fast path of [open], adds a reference, and fails with the
    engine's "database not open" wrapped in the method's own message; the
    file system is not touched. ([Set] is given a byte sequence or a
    text.) *)
Theorem calls_fail_while_the_handle_is_closed {V : GoValue} (o : op)
    (env : DiskStore.Env) (s : DiskStore.t) (w : bolt.World) :
  DiskStore.opened s = true ->
  bolt.db_opened (DiskStore.handle s) = false ->
  o <> OpClose ->
  (forall key value, o = OpSet key value -> is_Some (as_bytes value)) ->
  exists context,
    call o env (s, w) =
    (DiskStore.mk (DiskStore.path s) (DiskStore.handle s) (DiskStore.bucket s)
       true (wrap64 (DiskStore.refCount s + 1)),
     w, Some (Wrapped context bolt.ErrDatabaseNotOpen)).
Proof.
  intros Hopened Hhandle Ho Hvalue.
  destruct o as [key|key value|key|key| | |prefix limit|]; [..|done];
    disk_method; unfold DiskStore.open, bolt.View, bolt.Update;
    rewrite Hopened; cbn [DiskStore.handle]; rewrite Hhandle;
    cbn [negb]; try (by eexists).
  destruct (Hvalue key value eq_refl) as [data Hdata].
  destruct value; try done; by eexists.
Qed.

Lemma calls_fail_while_the_handle_is_closed_witness :
  let V := Fragment.values in
  let st :=
    run [(OpSet "key" (VString "value"), DiskStore.healthy);
         (OpClose, Close_fails)]
      (new_store "kv.db", bolt.mkWorld ∅ 0) in
  DiskStore.opened st.1 = true /\
  bolt.db_opened (DiskStore.handle st.1) = false /\
  OpGet "key" <> OpClose /\
  exists context,
    call (OpGet "key") DiskStore.healthy (st.1, st.2) =
    (DiskStore.mk (DiskStore.path st.1) (DiskStore.handle st.1)
       (DiskStore.bucket st.1) true (wrap64 (DiskStore.refCount st.1 + 1)),
     st.2, Some (Wrapped context bolt.ErrDatabaseNotOpen)).
Proof.
  intros V st.
  assert (OpGet "key" <> OpClose) as Ho by done.
  split; [reflexivity|]. split; [reflexivity|]. split; [exact Ho|].
  apply (calls_fail_while_the_handle_is_closed (V := V) (OpGet "key")
           DiskStore.healthy st.1 st.2 eq_refl eq_refl Ho).
  by intros key value ?.
Defined.

(** ** Callers of [open] that run together *)

Lemma holding_insert_other (sh sh' : OpenRace.shared)
    (gs : list OpenRace.pc) (g : nat) (at' : OpenRace.pc) :
  OpenRace.lock sh' = OpenRace.lock sh ->
  OpenRace.lock sh <> Some g ->
  holding sh' (<[g := at']> gs) = holding sh gs.
Proof.
  intros Hlock Hne. unfold holding. rewrite Hlock.
  destruct (OpenRace.lock sh) as [g'|]; [|done].
  by rewrite list_lookup_insert_ne by congruence.
Qed.

Lemma holding_insert_owner (sh' : OpenRace.shared)
    (gs : list OpenRace.pc) (g : nat) (at_ at' : OpenRace.pc) :
  gs !! g = Some at_ ->
  OpenRace.lock sh' = Some g ->
  holding sh' (<[g := at']> gs) = holds_handle at'.
Proof.
  intros Hg Hlock. unfold holding. rewrite Hlock.
  rewrite list_lookup_insert_eq; [done|]. by eapply lookup_lt_Some.
Qed.

Lemma holding_unlocked (sh : OpenRace.shared) (gs : list OpenRace.pc) :
  OpenRace.lock sh = None -> holding sh gs = false.
Proof. unfold holding. by intros ->. Qed.

Lemma holding_owner (sh : OpenRace.shared) (gs : list OpenRace.pc)
    (g : nat) (at_ : OpenRace.pc) :
  gs !! g = Some at_ -> OpenRace.lock sh = Some g ->
  holding sh gs = holds_handle at_.
Proof. unfold holding. intros Hg ->. by rewrite Hg. Qed.

Lemma lookup_insert_cases (gs : list OpenRace.pc) (g g' : nat)
    (at' a : OpenRace.pc) :
  <[g := at']> gs !! g' = Some a ->
  g' = g /\ a = at' \/ g' <> g /\ gs !! g' = Some a.
Proof.
  intros [(-> & -> & _)|[? ?]]%list_lookup_insert_Some; [by left|by right].
Qed.

Lemma section_of_holder (at_ : OpenRace.pc) :
  at_ = OpenRace.L58 \/ holds_handle at_ = true -> in_section at_ = true.
Proof. intros [->|H]; [done|]. by destruct at_. Qed.

Section Exclusion.
Variables (h0 : nat) (sh sh' : OpenRace.shared) (gs : list OpenRace.pc).
Variables (g : nat) (at_ at' : OpenRace.pc).
Hypothesis Hinv : exclusive h0 sh gs.
Hypothesis Hg : gs !! g = Some at_.

Lemma others_outside (g' : nat) (a : OpenRace.pc) :
  OpenRace.lock sh = None \/ OpenRace.lock sh = Some g ->
  g' <> g -> gs !! g' = Some a -> in_section a = false.
Proof.
  intros Hlock Hne Hg'. destruct (in_section a) eqn:Ha; [|done].
  pose proof (exclusive_lock _ _ _ Hinv g' a Hg' Ha) as Hown.
  destruct Hlock; congruence.
Qed.

(** A step that leaves the mutex, the flag and the handles alone. *)
Lemma exclusive_quiet :
  OpenRace.lock sh' = OpenRace.lock sh ->
  bolt.open_handles (OpenRace.world sh') =
    bolt.open_handles (OpenRace.world sh) ->
  DiskStore.opened (OpenRace.store sh') =
    DiskStore.opened (OpenRace.store sh) ->
  holds_handle at' = holds_handle at_ ->
  (in_section at' = true -> in_section at_ = true) ->
  (at' = OpenRace.L58 \/ holds_handle at' = true ->
   DiskStore.opened (OpenRace.store sh) = false) ->
  (forall handler, at' = OpenRace.L63 handler ->
                   bolt.db_opened handler = true) ->
  exclusive h0 sh' (<[g := at']> gs).
Proof.
  intros Hlock Hh Hopened Hholds Hsection Hclosed Hhandler.
  destruct Hinv as [I1 I2 I3 I4]. split.
  - intros g' a [[-> ->]|[Hne Hg']]%lookup_insert_cases Ha; rewrite Hlock.
    + exact (I1 g at_ Hg (Hsection Ha)).
    + exact (I1 g' a Hg' Ha).
  - assert (holding sh' (<[g := at']> gs) = holding sh gs) as ->;
      [|by rewrite Hh, Hopened, I2].
    unfold holding. rewrite Hlock.
    destruct (OpenRace.lock sh) as [g'|]; [|done].
    destruct (decide (g' = g)) as [->|Hne].
    + rewrite list_lookup_insert_eq by (by eapply lookup_lt_Some).
      by rewrite Hg.
    + by rewrite list_lookup_insert_ne by done.
  - intros g' a [[-> ->]|[Hne Hg']]%lookup_insert_cases Ha; rewrite Hopened.
    + by apply Hclosed.
    + exact (I3 g' a Hg' Ha).
  - intros g' handler [[-> Heq]|[Hne Hg']]%lookup_insert_cases.
    + by apply Hhandler.
    + exact (I4 g' handler Hg').
Qed.

(** A return that runs the deferred [Unlock]. *)
Lemma exclusive_unlock (err : option error) :
  in_section at_ = true ->
  holds_handle at_ = false ->
  OpenRace.lock sh' = None ->
  bolt.open_handles (OpenRace.world sh') =
    bolt.open_handles (OpenRace.world sh) ->
  DiskStore.opened (OpenRace.store sh') =
    DiskStore.opened (OpenRace.store sh) ->
  exclusive h0 sh' (<[g := OpenRace.Returned err]> gs).
Proof.
  intros Hsection Hholds Hlock Hh Hopened.
  pose proof (exclusive_lock _ _ _ Hinv g at_ Hg Hsection) as Hown.
  destruct Hinv as [I1 I2 I3 I4]. split.
  - intros g' a [[-> ->]|[Hne Hg']]%lookup_insert_cases Ha; [done|].
    by rewrite (others_outside g' a (or_intror Hown) Hne Hg') in Ha.
  - rewrite Hh, Hopened, I2, (holding_unlocked sh') by done.
    by rewrite (holding_owner sh gs g at_ Hg Hown), Hholds.
  - intros g' a [[-> ->]|[Hne Hg']]%lookup_insert_cases Ha.
    + by destruct Ha.
    + apply section_of_holder in Ha.
      by rewrite (others_outside g' a (or_intror Hown) Hne Hg') in Ha.
  - intros g' handler [[-> Heq]|[Hne Hg']]%lookup_insert_cases; [done|].
    by pose proof (others_outside g' _ (or_intror Hown) Hne Hg').
Qed.
End Exclusion.

Lemma step_exclusive (h0 : nat) (env : DiskStore.Env) (g : nat)
    (sh sh' : OpenRace.shared) (gs : list OpenRace.pc)
    (at_ at' : OpenRace.pc) :
  DiskStore.init_fault env = None ->
  exclusive h0 sh gs ->
  gs !! g = Some at_ ->
  OpenRace.step env g sh at_ = Some (sh', at') ->
  exclusive h0 sh' (<[g := at']> gs).
Proof.
  intros Hinit Hinv Hg Hstep.
  destruct at_ as [| | | | |handler|handler| | | | |err];
    cbn [OpenRace.step] in Hstep.
  - (* L46 *)
    injection Hstep as <- <-.
    by apply (exclusive_quiet h0 sh sh gs g OpenRace.L46);
      destruct (DiskStore.opened (OpenRace.store sh)); try done;
      intros [|]; done.
  - (* L47 *)
    injection Hstep as <- <-.
    apply (exclusive_quiet h0 sh _ gs g OpenRace.L47); try done.
    by intros [|].
  - (* L51 *)
    destruct (OpenRace.lock sh) eqn:Hlock; [done|]. injection Hstep as <- <-.
    destruct Hinv as [I1 I2 I3 I4]. split; cbn [OpenRace.lock OpenRace.world
      OpenRace.store].
    + intros g' a [[-> ->]|[Hne Hg']]%lookup_insert_cases Ha; [done|].
      pose proof (I1 g' a Hg' Ha). congruence.
    + rewrite I2, (holding_unlocked sh) by done.
      by rewrite (holding_insert_owner _ gs g _ _ Hg) by done.
    + intros g' a [[-> ->]|[Hne Hg']]%lookup_insert_cases Ha.
      * by destruct Ha.
      * exact (I3 g' a Hg' Ha).
    + intros g' handler [[-> Heq]|[Hne Hg']]%lookup_insert_cases; [done|].
      exact (I4 g' handler Hg').
  - (* L54 *)
    destruct (DiskStore.opened (OpenRace.store sh)) eqn:Hopened; injection Hstep as <- <-.
    + by apply (exclusive_unlock h0 sh _ gs g OpenRace.L54).
    + apply (exclusive_quiet h0 sh sh gs g OpenRace.L54); try done.
  - (* L58 *)
    pose proof (exclusive_lock _ _ _ Hinv g _ Hg eq_refl) as Hown.
    pose proof (exclusive_closed _ _ _ Hinv g _ Hg (or_introl eq_refl))
      as Hclosed.
    unfold bolt.Open in Hstep.
    destruct (DiskStore.Open_fault env) as [msg|]; injection Hstep as <- <-.
    { by apply (exclusive_unlock h0 sh _ gs g OpenRace.L58). }
    destruct Hinv as [I1 I2 I3 I4]. split; cbn [OpenRace.lock OpenRace.world
      OpenRace.store bolt.open_handles].
    + intros g' a [[-> ->]|[Hne Hg']]%lookup_insert_cases Ha; [done|].
      exact (I1 g' a Hg' Ha).
    + rewrite I2, Hclosed, (holding_owner sh gs g _ Hg Hown).
      rewrite (holding_insert_owner _ gs g _ _ Hg) by done.
      simpl. lia.
    + by intros.
    + intros g' handler [[-> Heq]|[Hne Hg']]%lookup_insert_cases.
      * by simplify_eq.
      * exact (I4 g' handler Hg').
  - (* L63 *)
    pose proof (exclusive_handler _ _ _ Hinv g _ Hg) as Hhandler.
    pose proof (exclusive_closed _ _ _ Hinv g _ Hg (or_intror eq_refl))
      as Hclosed.
    unfold bolt.Update in Hstep. rewrite Hhandler, Hinit in Hstep.
    cbn [negb] in Hstep.
    unfold DiskStore.create_bucket, bolt.CreateBucketIfNotExists in Hstep.
    change (list_byte_of_string DiskStore.DefaultDiskStorePath)
      with ("."%byte :: list_byte_of_string "k6.kv") in Hstep.
    cbv iota in Hstep.
    destruct (bolt.Tx_Bucket _ _) in Hstep; injection Hstep as <- <-;
      by apply (exclusive_quiet h0 sh _ gs g (OpenRace.L63 handler)).
  - (* L75 *)
    pose proof (exclusive_closed _ _ _ Hinv g _ Hg (or_intror eq_refl)).
    injection Hstep as <- <-.
    by apply (exclusive_quiet h0 sh _ gs g (OpenRace.L75 handler)).
  - (* L76 *)
    pose proof (exclusive_closed _ _ _ Hinv g _ Hg (or_intror eq_refl)).
    injection Hstep as <- <-.
    by apply (exclusive_quiet h0 sh _ gs g OpenRace.L76).
  - (* L77 *)
    pose proof (exclusive_lock _ _ _ Hinv g _ Hg eq_refl) as Hown.
    pose proof (exclusive_closed _ _ _ Hinv g _ Hg (or_intror eq_refl))
      as Hclosed.
    injection Hstep as <- <-.
    pose proof (others_outside h0 sh gs g Hinv) as Hothers.
    destruct Hinv as [I1 I2 I3 I4]. split; cbn [OpenRace.lock OpenRace.world
      OpenRace.store DiskStore.opened].
    + intros g' a [[-> ->]|[Hne Hg']]%lookup_insert_cases Ha; [done|].
      exact (I1 g' a Hg' Ha).
    + rewrite I2, Hclosed, (holding_owner sh gs g _ Hg Hown). done.
    + intros g' a [[-> ->]|[Hne Hg']]%lookup_insert_cases Ha.
      * by destruct Ha.
      * apply section_of_holder in Ha.
        by rewrite (Hothers g' a (or_intror Hown) Hne Hg') in Ha.
    + intros g' handler [[-> Heq]|[Hne Hg']]%lookup_insert_cases; [done|].
      exact (I4 g' handler Hg').
  - (* L78 *)
    injection Hstep as <- <-.
    apply (exclusive_quiet h0 sh _ gs g OpenRace.L78); try done.
    by intros [|].
  - (* L80 *)
    injection Hstep as <- <-.
    by apply (exclusive_unlock h0 sh _ gs g OpenRace.L80).
  - done.
Qed.

Lemma run_exclusive (h0 : nat) (env : DiskStore.Env) (schedule : list nat)
    (sh final : OpenRace.shared) (gs gs' : list OpenRace.pc) :
  DiskStore.init_fault env = None ->
  exclusive h0 sh gs ->
  OpenRace.run env schedule sh gs = Some (final, gs') ->
  exclusive h0 final gs'.
Proof.
  intros Hinit. revert sh gs.
  induction schedule as [|g schedule IH]; intros sh gs Hinv; simpl.
  { intros ?. by simplify_eq. }
  destruct (gs !! g) as [at_|] eqn:Hg; [|done].
  destruct (OpenRace.step env g sh at_) as [[sh' at']|] eqn:Hstep; [|done].
  apply IH. by eapply step_exclusive.
Qed.

Lemma exclusive_start (n : nat) (p : string) (w : bolt.World) :
  exclusive (bolt.open_handles w)
    (OpenRace.mkShared (new_store p) w None) (replicate n OpenRace.L46).
Proof.
  split; simpl.
  - by intros g at_ [-> _]%lookup_replicate.
  - lia.
  - intros g at_ [-> _]%lookup_replicate [|]; done.
  - by intros g handler [? _]%lookup_replicate.
Qed.

(** X13. However many callers run [open] together on a new disk store and
    however their steps interleave, the process never holds more than one
    handle of the store open, provided the creation of the bucket does
    not fail; once every caller has returned, it holds one exactly when
    the store is marked open. *)
Theorem open_opens_the_database_once (env : DiskStore.Env) (n : nat)
    (schedule : list nat) (p : string) (w : bolt.World)
    (final : OpenRace.shared) (goroutines : list OpenRace.pc) :
  DiskStore.init_fault env = None ->
  OpenRace.run env schedule (OpenRace.mkShared (new_store p) w None)
    (replicate n OpenRace.L46) = Some (final, goroutines) ->
  (bolt.open_handles (OpenRace.world final) <= S (bolt.open_handles w))%nat /\
  (Forall has_returned goroutines ->
   bolt.open_handles (OpenRace.world final) =
   (bolt.open_handles w +
    if DiskStore.opened (OpenRace.store final) then 1 else 0)%nat).
Proof.
  intros Hinit Hrun.
  pose proof (run_exclusive _ env schedule _ final _ goroutines Hinit
                (exclusive_start n p w) Hrun) as [_ Hh _ _].
  split.
  - rewrite Hh. destruct (_ || _); lia.
  - intros Hreturned. rewrite Hh.
    assert (holding final goroutines = false) as ->;
      [|by rewrite orb_false_r].
    unfold holding. destruct (OpenRace.lock final) as [g|]; [|done].
    destruct (goroutines !! g) as [at_|] eqn:Hg; [|done].
    eapply Forall_lookup_1 in Hreturned; [|done]. by destruct at_.
Qed.

Lemma open_opens_the_database_once_witness :
  match
    OpenRace.run DiskStore.healthy race_schedule
      (OpenRace.mkShared (new_store "kv.db") (bolt.mkWorld ∅ 0) None)
      (replicate 2 OpenRace.L46)
  with
  | Some (final, goroutines) =>
      DiskStore.init_fault DiskStore.healthy = None /\
      Forall has_returned goroutines /\
      bolt.open_handles (OpenRace.world final) = 1%nat /\
      DiskStore.opened (OpenRace.store final) = true
  | None => False
  end.
Proof.
  destruct (OpenRace.run DiskStore.healthy race_schedule
              (OpenRace.mkShared (new_store "kv.db") (bolt.mkWorld ∅ 0) None)
              (replicate 2 OpenRace.L46))
    as [[final goroutines]|] eqn:Hrun; [|by vm_compute in Hrun].
  destruct (open_opens_the_database_once DiskStore.healthy 2 race_schedule
              "kv.db" (bolt.mkWorld ∅ 0) final goroutines eq_refl Hrun)
    as [_ Hh].
  assert (Forall has_returned goroutines /\
          DiskStore.opened (OpenRace.store final) = true) as [Hret Hopened].
  { vm_compute in Hrun. simplify_eq. split; [|done].
    repeat constructor. }
  split; [done|]. split; [done|]. split; [|done].
  rewrite (Hh Hret), Hopened. done.
Defined.

(** ** Through a serializer *)

Section Decoding.
Context {V : GoValue}.

Lemma deserialize_entries_Ok (sr : Serializer) (raw decoded : list Entry) :
  Forall (fun entry => exists data, Value entry = VBytes data) raw ->
  SerializedStore.deserialize_entries sr raw = Ok decoded ->
  Forall2
    (fun r d =>
       Key d = Key r /\
       exists data, Value r = VBytes data /\ Deserialize sr data = Ok (Value d))
    raw decoded.
Proof.
  intros Hraw. revert decoded.
  induction Hraw as [|[k v] raw [data Hv] Hraw IH]; intros decoded; simpl.
  { intros ?. simplify_eq. constructor. }
  simpl in Hv. subst v.
  destruct (Deserialize sr data) as [value|err] eqn:Hd; [|done].
  destruct (SerializedStore.deserialize_entries sr raw) as [rest|err]; [|done].
  intros ?. simplify_eq. constructor; [|by apply IH].
  simpl. split; [done|]. by exists data.
Qed.

Lemma deserialize_entries_Err (sr : Serializer) (raw : list Entry) (err : error) :
  Forall (fun entry => exists data, Value entry = VBytes data) raw ->
  SerializedStore.deserialize_entries sr raw = Err err ->
  exists bad data cause,
    bad ∈ raw /\ Value bad = VBytes data /\
    Deserialize sr data = Err cause /\
    err = Wrapped ("failed to deserialize value for key " +:+ Key bad) cause.
Proof.
  intros Hraw.
  induction Hraw as [|[k v] raw [data Hv] Hraw IH]; simpl; [done|].
  simpl in Hv. subst v.
  destruct (Deserialize sr data) as [value|cause] eqn:Hd.
  - destruct (SerializedStore.deserialize_entries sr raw) as [rest|err']; [done|].
    intros ?. simplify_eq.
    destruct (IH eq_refl) as (bad & data' & cause & Hin & ?).
    exists bad, data', cause. split; [by right|done].
  - intros ?. simplify_eq.
    exists (mkEntry k (VBytes data)), data, cause. split; [by left|done].
Qed.

Lemma elem_of_collect (s : MemoryStore.t) (limit : Z) (keys : list string)
    (count : Z) (entries : list Entry) (entry : Entry) :
  entry ∈ MemoryStore.collect s limit keys count entries ->
  entry ∈ entries \/ exists k, k ∈ keys /\ entry = entry_of s k.
Proof.
  revert count entries.
  induction keys as [|k keys IH]; intros count entries; simpl; [by left|].
  destruct ((0 <? limit) && (limit <=? count)); [by left|].
  intros [[Hin|Hin%list_elem_of_singleton]%elem_of_app|(k' & Hin & ->)]%IH.
  - by left.
  - right. exists k. split; [by left|done].
  - right. exists k'. split; [by right|done].
Qed.

Lemma MemoryStore_List_entries (prefix : string) (limit : Z)
    (m : MemoryStore.t) (raw : list Entry) (entry : Entry) :
  MemoryStore.List prefix limit m = Ok raw ->
  entry ∈ raw ->
  exists data,
    Value entry = VBytes data /\
    MemoryStore.container m !! Key entry = Some data /\
    HasPrefix (Key entry) prefix = true.
Proof.
  unfold MemoryStore.List, MemoryStore.List_visiting. intros ? Hin.
  simplify_eq.
  apply elem_of_collect in Hin as [Hin|(k & Hin & ->)];
    [by apply elem_of_nil in Hin|].
  unfold sort_Strings in Hin.
  rewrite merge_sort_Permutation, matching_keys_filter in Hin.
  apply list_elem_of_filter in Hin as [Hp Hin].
  apply list_elem_of_fmap in Hin as ([k' data] & -> & Hin).
  apply elem_of_map_to_list in Hin. simpl in *.
  exists data. unfold entry_of. simpl. by rewrite Hin.
Qed.
End Decoding.

(** X14. [SerializedStore.List] over the memory store agrees with
    [SerializedStore.Get]. When it succeeds, its entries have the keys of
    the backend's [List] in the same order, each with the value [Get]
    returns for the key. When it fails, it returns no entry, and the error
    is the one [Get] returns for one of the listed keys, wrapped in
    "failed to deserialize value for key" and the key: one value that
    does not decode fails the whole listing. *)
Theorem SerializedStore_List_agrees_with_Get {V : GoValue}
    (sr : Serializer) (m : MemoryStore.t) (prefix : string) (limit : Z) :
  let s := SerializedStore.mk m sr in
  match (SerializedStore.List prefix limit tt s).2 with
  | Ok entries =>
      (exists raw,
          MemoryStore.List prefix limit m = Ok raw /\
          Key <$> entries = Key <$> raw) /\
      (forall entry,
          entry ∈ entries ->
          (SerializedStore.Get (Key entry) tt s).2 = Ok (Value entry))
  | Err err =>
      exists key cause,
        err = Wrapped ("failed to deserialize value for key " +:+ key) cause /\
        (SerializedStore.Get key tt s).2 = Err cause /\
        HasPrefix key prefix = true
  end.
Proof.
  intros s. unfold s, SerializedStore.List, SerializedStore.Get.
  cbn [SerializedStore.store SerializedStore.serializer Store.List Store.Get
       MemoryStore_Store].
  destruct (MemoryStore.List prefix limit m) as [raw|err] eqn:Hlist;
    [|done].
  cbn [snd].
  assert (Forall (fun entry => exists data, Value entry = VBytes data) raw)
    as Hraw.
  { apply Forall_forall. intros entry Hin.
    destruct (MemoryStore_List_entries _ _ _ _ _ Hlist Hin) as (data & ? & _).
    by exists data. }
  destruct (SerializedStore.deserialize_entries sr raw) as [entries|err] eqn:Hd.
  - apply deserialize_entries_Ok in Hd; [|done]. split.
    + exists raw. split; [done|].
      clear Hlist Hraw.
      induction Hd as [|r d raw entries [Hkey _] _ IH]; [done|].
      by rewrite !fmap_cons, Hkey, IH.
    + intros entry Hin.
      destruct (proj1 (list_elem_of_lookup _ _) Hin) as [i Hi].
      destruct (Forall2_lookup_r _ _ _ _ _ Hd Hi)
        as (r & Hr & Hkey & data & Hvalue & Hdec).
      apply list_elem_of_lookup_2 in Hr.
      destruct (MemoryStore_List_entries _ _ _ _ _ Hlist Hr)
        as (data' & Hvalue' & Hget & _).
      rewrite Hkey. unfold MemoryStore.Get. rewrite Hget. cbn [snd].
      congruence.
  - apply deserialize_entries_Err in Hd
      as (bad & data & cause & Hin & Hvalue & Hdec & ->); [|done].
    destruct (MemoryStore_List_entries _ _ _ _ _ Hlist Hin)
      as (data' & Hvalue' & Hget & Hp).
    exists (Key bad), cause. split; [done|]. split; [|done].
    unfold MemoryStore.Get. rewrite Hget. cbn [snd]. congruence.
Qed.



(** X16. With the raw-text serializer over the memory store, writing back
    the value that [Get] returned for a key leaves the store exactly as it
    was: decoding the stored bytes and encoding the result gives the
    stored bytes. *)
Theorem StringSerializer_write_back_is_stable {V : GoValue}
    (key : string) (value : any) (m : MemoryStore.t) :
  let s := SerializedStore.mk m StringSerializer.NewStringSerializer in
  (SerializedStore.Get key tt s).2 = Ok value ->
  SerializedStore.Set_ key value tt s = (s, None).
Proof.
  intros s. unfold s, SerializedStore.Get, SerializedStore.Set_.
  cbn [SerializedStore.store SerializedStore.serializer Store.Get Store.Set_
       MemoryStore_Store Serialize Deserialize
       StringSerializer.NewStringSerializer].
  unfold MemoryStore.Get.
  destruct (MemoryStore.container m !! key) as [data|] eqn:Hkey; [|done].
  cbn [snd]. unfold StringSerializer.Deserialize. intros ?. simplify_eq.
  cbn [StringSerializer.Serialize MemoryStore.Set_].
  rewrite String.list_byte_of_string_of_list_byte, insert_id by done.
  by destruct m.
Qed.

Lemma StringSerializer_write_back_is_stable_witness :
  let V := Fragment.values in
  let m := MemoryStore.mk {[ "a" := list_byte_of_string "1" ]} in
  let s := SerializedStore.mk m StringSerializer.NewStringSerializer in
  (SerializedStore.Get "a" tt s).2 = Ok (VString "1") /\
  SerializedStore.Set_ "a" (VString "1") tt s = (s, None).
Proof.
  intros V m s.
  assert ((SerializedStore.Get (backend := MemoryStore_Store) "a" tt s).2 =
          Ok (VString "1")) as Hget by reflexivity.
  split; [exact Hget|].
  exact (StringSerializer_write_back_is_stable (V := V) "a" (VString "1") m
           Hget).
Defined.

(** ** The options of [openKv] and the store of the module *)

Lemma NewOptionsFrom_valid (options : kv.argument) :
  (kv.NewOptionsFrom options).2 = None ->
  valid_options (kv.NewOptionsFrom options).1.
Proof.
  unfold kv.NewOptionsFrom, valid_options.
  destruct options as [|ExportTo]; [by split; [right|left]|].
  destruct (ExportTo _) as [opts [reason|]]; cbn [fst snd]; [done|].
  destruct (String.eqb_spec (kv.Backend opts) "memory") as [Hb1|Hb1];
    destruct (String.eqb_spec (kv.Backend opts) "disk") as [Hb2|Hb2];
    destruct (String.eqb_spec (kv.Serialization opts) "json") as [Hs1|Hs1];
    destruct (String.eqb_spec (kv.Serialization opts) "string") as [Hs2|Hs2];
    cbn [negb andb fst snd]; try done; intros _; split; auto.
Qed.

(** X17. [NewOptionsFrom] returns the defaults, backend "disk" and
    serialization "json", for a null or undefined argument, and these pass
    its own validation. For any other argument it returns the options
    [ExportTo] made, with no error exactly when the backend is "memory" or
    "disk" and the serialization is "json" or "string"; an error of
    [ExportTo] is returned as "unable to parse options". *)
Theorem NewOptionsFrom_accepts_the_valid_options (options : kv.argument) :
  match options with
  | kv.Nullish =>
      kv.NewOptionsFrom options = (kv.mkOptions "disk" "json", None)
  | kv.Object ExportTo =>
      let exported := ExportTo (kv.mkOptions "disk" "json") in
      match exported.2 with
      | Some reason =>
          (kv.NewOptionsFrom options).2 = Some (kv.UnableToParseOptions reason)
      | None =>
          (kv.NewOptionsFrom options).1 = exported.1 /\
          ((kv.NewOptionsFrom options).2 = None <-> valid_options exported.1)
      end
  end /\
  valid_options (kv.NewOptionsFrom kv.Nullish).1.
Proof.
  split; [|by split; [right|left]].
  destruct options as [|ExportTo]; [done|].
  unfold kv.NewOptionsFrom, valid_options.
  change (kv.mkOptions kv.DefaultBackend kv.DefaultSerialization)
    with (kv.mkOptions "disk" "json").
  destruct (ExportTo (kv.mkOptions "disk" "json")) as [opts [reason|]];
    cbn [fst snd]; [done|].
  destruct (String.eqb_spec (kv.Backend opts) "memory") as [Hb1|Hb1];
    destruct (String.eqb_spec (kv.Backend opts) "disk") as [Hb2|Hb2];
    destruct (String.eqb_spec (kv.Serialization opts) "json") as [Hs1|Hs1];
    destruct (String.eqb_spec (kv.Serialization opts) "string") as [Hs2|Hs2];
    cbn [negb andb fst snd]; (split; [done|]); split;
    try done; try tauto; intros; by split; [left + right | left + right].
Qed.

(** The text of the error for a backend that is not known: the format
    string is given [DefaultBackend] and "disk". *)
Example invalid_backend_message :
  kv.Error (kv.InvalidBackend "redis") =
  "invalid backend: redis, valid values are: disk, disk".
Proof. reflexivity. Qed.

(** X18. [OpenKv] throws exactly the error of [NewOptionsFrom] and then
    leaves the root module as it was. Otherwise the options are valid;
    a root module that has a store keeps it, and one that has none gets a
    serialized store whose base store is not nil: a new memory store for
    the backend "memory", a new disk store for "disk", with the JSON
    serializer for the serialization "json" and the raw-text serializer
    for "string". *)
Theorem OpenKv_builds_the_store_the_options_name
    {V : GoValue} {J : EncodingJSON}
    (opts : kv.argument) (rm : kv.RootModule) :
  let options := (kv.NewOptionsFrom opts).1 in
  match kv.OpenKv opts rm with
  | (rm', Some err) => rm' = rm /\ (kv.NewOptionsFrom opts).2 = Some err
  | (rm', None) =>
      valid_options options /\
      match kv.store rm with
      | Some _ => rm' = rm
      | None =>
          exists baseStore serializer,
            kv.store rm' = Some (SerializedStore.mk (Some baseStore) serializer) /\
            (kv.Backend options = "memory" /\
             baseStore = kv.OfMemoryStore MemoryStore.NewMemoryStore \/
             kv.Backend options = "disk" /\
             baseStore = kv.OfDiskStore DiskStore.NewDiskStore) /\
            (kv.Serialization options = "json" /\
             serializer = JSONSerializer.NewJSONSerializer \/
             kv.Serialization options = "string" /\
             serializer = StringSerializer.NewStringSerializer)
      end
  end.
Proof.
  intros options. unfold kv.OpenKv. subst options.
  pose proof (NewOptionsFrom_valid opts) as Hvalid.
  destruct (kv.NewOptionsFrom opts) as [options [err|]]; [done|].
  cbn [fst snd] in *. specialize (Hvalid eq_refl).
  destruct (kv.store rm); [done|].
  split; [done|].
  destruct Hvalid as [[Hb|Hb] [Hs|Hs]]; rewrite Hb, Hs; cbn;
    eexists _, _; (split; [reflexivity|]); split; auto.
Qed.

(** X19. Once the root module has a store, every later call of [OpenKv]
    leaves the module as it is, whatever backend and serialization the
    call names: the options are checked (the call throws what
    [NewOptionsFrom] returns) and otherwise ignored. *)
Theorem OpenKv_keeps_the_first_store {V : GoValue} {J : EncodingJSON}
    (calls : list kv.argument) (rm : kv.RootModule) :
  is_Some (kv.store rm) ->
  OpenKv_all calls rm = rm /\
  Forall (fun opts =>
            (kv.OpenKv opts rm).2 = (kv.NewOptionsFrom opts).2) calls.
Proof.
  intros [st Hstore].
  assert (forall opts,
             kv.OpenKv opts rm = (rm, (kv.NewOptionsFrom opts).2)) as Hcall.
  { intros opts. unfold kv.OpenKv. rewrite Hstore.
    by destruct (kv.NewOptionsFrom opts) as [options [err|]]. }
  split.
  - unfold OpenKv_all. induction calls as [|opts calls IH]; [done|].
    simpl. by rewrite Hcall.
  - apply Forall_forall. intros opts _. by rewrite Hcall.
Qed.

Lemma OpenKv_keeps_the_first_store_witness :
  let V := Fragment.values in
  let J := Fragment.json in
  let memory_string :=
    kv.Object (fun _ => (kv.mkOptions "memory" "string", None)) in
  let disk_json := kv.Object (fun opts => (opts, None)) in
  let rm := (kv.OpenKv memory_string kv.New).1 in
  is_Some (kv.store rm) /\
  OpenKv_all [disk_json; kv.Nullish] rm = rm /\
  kv.store rm =
    Some (SerializedStore.mk
            (Some (kv.OfMemoryStore MemoryStore.NewMemoryStore))
            StringSerializer.NewStringSerializer).
Proof.
  intros V J memory_string disk_json rm.
  assert (is_Some (kv.store rm)) as Hstore by (by eexists).
  split; [exact Hstore|]. split; [|reflexivity].
  exact (proj1 (OpenKv_keeps_the_first_store (V := V) (J := J)
                  [disk_json; kv.Nullish] rm Hstore)).
Defined.

(** ** The count of [open] under interleaving *)






